(** * quiz_solver: the session orchestrator, the iteration engine and the
      execution sandbox

    A shallow embedding of [app/core/code_executor.py],
    [app/core/agent_loop.py] and [app/main.py].

    Everything the Python code obtains from outside the process (the clock,
    the page extractor, the two LLM collaborators, the downloader, the
    Python interpreter behind [exec], the quiz server) is an explicit input
    of the model, so every statement below is quantified over all the
    behaviours these collaborators can show.

    The code the interpreter runs is written by a language model: besides
    failing with an ordinary exception it can raise one outside the class
    [Exception] ([sys.exit()] raises [SystemExit]), which none of the
    [except Exception] clauses of the repository catches. The model follows
    such an exception through every caller. *)

From stdpp Require Import gmap strings list fin_maps pretty.
From Stdlib Require Import ZArith Lia Ascii.


(** ** Python values *)

Module Py.

(** The Python objects the modelled code can tell apart: it only asks
    whether a value [is None], whether it is [callable], and whether it is
    truthy. Functions, lambdas and classes are [PyFunc]; a module object is
    not callable. *)
Inductive pyval : Type :=
| PyNone
| PyBool (b : bool)
| PyInt (z : Z)
| PyStr (s : string)
| PyFunc (name : string)
| PyModule (name : string).

Definition is_none (v : pyval) : bool :=
  match v with PyNone => true | _ => false end.

Definition callable (v : pyval) : bool :=
  match v with PyFunc _ => true | _ => false end.

(** [bool(s)] for a [str]. *)
Definition str_truthy (s : string) : bool :=
  match s with EmptyString => false | String _ _ => true end.

(** [key.startswith('_')] *)
Definition startswith_underscore (key : string) : bool :=
  match key with
  | String c _ => if decide (c = "_"%char) then true else false
  | EmptyString => false
  end.

(** A [dict] with [str] keys, in insertion order (Python 3.7+): the keys of
    a well-formed dict are pairwise distinct. *)
Definition pydict (V : Type) : Type := list (string * V).

Definition wf_dict {V} (d : pydict V) : Prop := NoDup (d.*1).

(** [k in d] *)
Fixpoint dict_in {V} (k : string) (d : pydict V) : bool :=
  match d with
  | [] => false
  | (k', _) :: d' => if decide (k = k') then true else dict_in k d'
  end.

(** [d[k]], for a key that is known to be in [d]; [d.get(k)] otherwise. *)
Fixpoint dict_get {V} (k : string) (d : pydict V) : option V :=
  match d with
  | [] => None
  | (k', v) :: d' => if decide (k = k') then Some v else dict_get k d'
  end.

(** [d[k] = v]: a key that is already bound keeps its position. *)
Fixpoint dict_set {V} (k : string) (v : V) (d : pydict V) : pydict V :=
  match d with
  | [] => [(k, v)]
  | (k', v') :: d' =>
      if decide (k = k') then (k, v) :: d' else (k', v') :: dict_set k v d'
  end.

(** How a call ends. It returns; or it raises an exception of class
    [Exception], of which [Raises] carries the text; or it raises one
    outside that class ([SystemExit], [KeyboardInterrupt]), which an
    [except Exception] clause lets through. *)
Inductive outcome (A : Type) : Type :=
| Returns (a : A)
| Raises (msg : string)
| Escapes (err : string).
Arguments Returns {A} a.
Arguments Raises {A} msg.
Arguments Escapes {A} err.

#[global] Instance outcome_ret : MRet outcome := fun A a => Returns a.
#[global] Instance outcome_bind : MBind outcome := fun A B f m =>
  match m with
  | Returns a => f a
  | Raises msg => Raises msg
  | Escapes err => Escapes err
  end.

End Py.

(** ** The execution sandbox ([core/code_executor.py]) *)

Module Executor.
Import Py.

(** The dictionary [execute_code] returns. *)
Record exec_result : Type := ExecResult {
  success : bool;
  result : pyval;
  stdout : string;
  stderr : string;
  error : option string
}.

(** What the [try] block of [_execute_sync] met (lines 121-142). [out] and
    [err] are the texts [exec(code, safe_globals, local_vars)] wrote under
    the two redirections. Then
    - [Raised]: [exec] raised an exception of class [Exception]; [trace] is
      the output of [traceback.format_exc()];
    - [Exited]: [exec] raised an exception outside that class, as code that
      calls [sys.exit()] does;
    - [Finished]: [exec] returned and left the bindings [local_vars];
      [printed] is what [print(result)] of line 142 then does. That call
      writes to the real standard output, the redirections being over, and
      it raises when the value cannot be turned into text or written; a
      [Raises] carries the output of [traceback.format_exc()].
    The interpreter is not part of the repository. *)
Inductive exec_run : Type :=
| Raised (out err : string) (trace : string)
| Exited (out err : string) (exc : string)
| Finished (out err : string) (local_vars : pydict pyval)
    (printed : outcome unit).

(** The loop of lines 130-133:
    [for var_name in [...]: if var_name in local_vars: result = ...; break] *)
Fixpoint first_named (names : list string) (local_vars : pydict pyval) : pyval :=
  match names with
  | [] => PyNone
  | var_name :: names' =>
      if dict_in var_name local_vars
      then default PyNone (dict_get var_name local_vars)
      else first_named names' local_vars
  end.

Definition result_names : list string :=
  ["result"; "answer"; "output"; "final_answer"].

(** The loop of lines 138-141 over [reversed(list(local_vars.items()))];
    [items] is that reversed list. [result] is [None] when it starts. *)
Fixpoint last_plain (items : list (string * pyval)) : pyval :=
  match items with
  | [] => PyNone
  | (key, value) :: items' =>
      if negb (callable value) && negb (startswith_underscore key)
      then value
      else last_plain items'
  end.

(** A non-empty dict is truthy. *)
Definition dict_truthy {V} (d : pydict V) : bool :=
  match d with [] => false | _ :: _ => true end.

(** Lines 128-141. *)
Definition extract_result (local_vars : pydict pyval) : pyval :=
  let result := first_named result_names local_vars in
  if is_none result && dict_truthy local_vars
  then last_plain (rev local_vars)
  else result.

(** [_execute_sync(code, context)], given what its [try] block met. The
    [except Exception] clause of line 151 turns an exception of [exec] and
    one of [print(result)] into the same dictionary; an exception outside
    that class leaves the function. *)
Definition _execute_sync (run : exec_run) : outcome exec_result :=
  match run with
  | Finished out err local_vars printed =>
      let result := extract_result local_vars in
      match printed with
      | Returns _ =>
          Returns {| success := true; result := result;
                     stdout := out; stderr := err; error := None |}
      | Raises trace =>
          Returns {| success := false; result := PyNone;
                     stdout := out; stderr := err; error := Some trace |}
      | Escapes exc => Escapes exc
      end
  | Raised out err trace =>
      Returns {| success := false; result := PyNone;
                 stdout := out; stderr := err; error := Some trace |}
  | Exited out err exc => Escapes exc
  end.

(** What [await asyncio.wait_for(loop.run_in_executor(...), timeout)] did:
    it raised [asyncio.TimeoutError]; it raised another exception of class
    [Exception]; it raised one outside that class of its own (the task was
    cancelled: [asyncio.CancelledError]); or the worker thread ran
    [_execute_sync], whose result or exception the [await] hands on. *)
Inductive wait_outcome : Type :=
| TimedOut
| WrapperError (msg : string)
| Cancelled (exc : string)
| Completed (run : exec_run).

(** The interpreter and the worker thread, as seen by [execute_code]. *)
Definition interpreter : Type := string -> wait_outcome.

(** [execute_code(code, context, timeout)]: its two [except] clauses
    (lines 34 and 42) catch [asyncio.TimeoutError] and [Exception]; an
    exception outside that class, which [_execute_sync] let through, leaves
    [execute_code] as well. *)
Definition execute_code (interp : interpreter) (code : string)
    (timeout : nat) : outcome exec_result :=
  match interp code with
  | Completed run => _execute_sync run
  | TimedOut =>
      Returns
        {| success := false; result := PyNone; stdout := EmptyString; stderr := EmptyString;
           error := Some ("Code execution timeout (" +:+ pretty timeout +:+ "s)") |}
  | WrapperError msg =>
      Returns
        {| success := false; result := PyNone; stdout := EmptyString; stderr := EmptyString;
           error := Some msg |}
  | Cancelled exc => Escapes exc
  end.

End Executor.

(** ** The session orchestrator ([core/agent_loop.py]) *)

Module Agent.
Import Py Executor.

Definition MAX_TOTAL_ATTEMPTS : nat := 30.
Definition MAX_ATTEMPTS_PER_URL : nat := 2.

(** *** Exceptions

    A call to a collaborator or to the network either returns or raises an
    exception of class [Exception]; [Exn] carries [str(e)]. *)
Inductive res (A : Type) : Type :=
| Ok (a : A)
| Exn (msg : string).
Arguments Ok {A} a.
Arguments Exn {A} msg.

#[global] Instance res_ret : MRet res := fun A a => Ok a.
#[global] Instance res_bind : MBind res := fun A B f m =>
  match m with
  | Ok a => f a
  | Exn msg => Exn msg
  end.

(** Such a call inside code that also runs the sandbox. *)
Definition lift {A} (r : res A) : outcome A :=
  match r with
  | Ok a => Returns a
  | Exn msg => Raises msg
  end.

(** Instants and durations are counted in microseconds, the resolution of
    [datetime]; [timedelta.total_seconds() < 10] holds exactly when the
    difference is below ten million of them. *)
Definition seconds (n : Z) : Z := (n * 1000000)%Z.
Definition minutes (n : Z) : Z := seconds (60 * n).

(** *** The collaborators' data *)

(** The dictionary [extract_quiz_content] returns (the fields the analyzer
    is given). *)
Record extraction : Type := Extraction {
  page_text : string;
  links : list string;
  tables : list string;
  question_context : string
}.

(** [Resource] and [AnalyzerResult] of [llm/schema.py], the fields the loop
    reads. A [HttpUrl] is a non-empty string. *)
Record resource : Type := Resource {
  source_url : option string;
  download : bool
}.

Record analysis : Type := Analysis {
  question : string;
  submission_link : option string;
  resources : list resource
}.

(** The dictionary [call_agent_llm] returns: [code] is a string or [None],
    [final_answer] any JSON value, [None] when there is none. *)
Record agent_response : Type := AgentResponse {
  code : option string;
  final_answer : pyval;
  reasoning : string
}.

(** One entry of [execution_history]. *)
Record iteration_record : Type := IterationRecord {
  rec_iteration : nat;
  rec_code : string;
  rec_result : exec_result
}.

(** The JSON object a submission is answered with: [correct] stands for the
    truthiness of [.get("correct")]; [url] and [reason] are [None] when the
    key is missing or null. The quiz protocol names a location by a
    string, and so does this record: a server that puts another JSON value
    under [url] is not among the servers the model speaks of. *)
Record outcome_dict : Type := OutcomeDict {
  correct : bool;
  reason : option string;
  url : option string
}.

(** What [submit_answer] hands back: a dict, or some other JSON value the
    server sent (on which [.get] raises [AttributeError]). *)
Inductive submission_response : Type :=
| RespDict (d : outcome_dict)
| RespOther.

(** The JSON payload of one POST. *)
Record request : Type := Request {
  req_target : string;
  req_email : string;
  req_secret : string;
  req_url : string;
  req_answer : pyval
}.

(** The [httpx.Response] of one POST: its status code, the message of the
    [HTTPStatusError] that [raise_for_status] raises for it when the status
    is not a success, and what [response.json()] does. *)
Record http_response : Type := HttpResponse {
  status_code : nat;
  status_error : string;
  json : res submission_response
}.

(** [response.raise_for_status()]: only a 2xx status passes. *)
Definition raise_for_status (r : http_response) : res unit :=
  if (200 <=? status_code r)%nat && (status_code r <? 300)%nat
  then Ok tt
  else Exn (status_error r).

(** The quiz server and the network, as seen through [client.post]: the
    call raises (connection refused, timeout, payload that cannot be
    serialised) or returns a response. *)
Definition network : Type := request -> res http_response.

(** *** The environment of one pass of the loop *)

Record iter_env : Type := IterEnv {
  it_now : Z;
  call_agent_llm : list iteration_record -> res agent_response;
  it_interp : interpreter
}.

Record attempt_env : Type := AttemptEnv {
  extract_quiz_content : string -> option extraction;
  call_analyzer_llm : extraction -> res analysis;
  download_resource : string -> option string;
  preprocess_downloaded_files : gmap string string -> res (gmap string string);
  iter : nat -> iter_env;
  post : network
}.

(** [now_top] is the clock read by the [while] condition, [now_guard] the
    one read by safety check 3. *)
Record pass_env : Type := PassEnv {
  now_top : Z;
  now_guard : Z;
  attempt : attempt_env
}.

(** *** The submission client (lines 243-267) *)

(** The body of the [try] (lines 262-264). *)
Definition post_and_parse (post : network) (payload : request)
    : res submission_response :=
  response ← post payload;
  _ ← raise_for_status response;
  json response.

(** [submit_answer(url, email, secret, quiz_url, answer)]: the requests it
    sent, and what the call does (it returns, or an exception leaves it). *)
Definition submit_answer (post : network)
    (url email secret quiz_url : string) (answer : pyval)
    : list request * res submission_response :=
  let payload := Request url email secret quiz_url answer in
  ([payload],
   match post_and_parse post payload with
   | Ok r => Ok r
   | Exn e => Ok (RespDict {| correct := false; reason := Some e; url := None |})
   end).

(** *** The session *)

Record session : Type := Session {
  current_url : string;
  total_attempts : nat;
  url_attempt_counts : gmap string nat;
  visited_urls : list string
}.

(** How one pass leaves the loop body: [break], [continue], falling
    through to the next pass with [current_url] rebound, or an exception
    that the [except Exception] clause of line 228 does not catch, which
    leaves the body and the loop with it. *)
Inductive control : Type :=
| Break
| Continue
| Next (next_url : string)
| Propagate (err : string).

(** Truthiness of an optional string ([if next_url:]). *)
Definition opt_truthy (o : option string) : bool :=
  match o with
  | Some s => str_truthy s
  | None => false
  end.

(** [next_url != current_url] *)
Definition differs (o : option string) (current_url : string) : bool :=
  match o with
  | Some s => if decide (s = current_url) then false else true
  | None => true
  end.

(** [url_attempt_counts.get(current_url, 0)] *)
Definition attempts_of (counts : gmap string nat) (u : string) : nat :=
  default 0 (counts !! u).

(** Lines 179-220: what the loop does with the answer of the server. *)
Definition interpret_submission (current_url : string)
    (url_attempt_counts : gmap string nat) (r : outcome_dict) : control :=
  if correct r then
    match url r with
    | Some next_url =>
        if str_truthy next_url then
          if decide (next_url = current_url) then Break else Next next_url
        else Break
    | None => Break
    end
  else
    let next_url := url r in
    let current_attempt := attempts_of url_attempt_counts current_url in
    if opt_truthy next_url && differs next_url current_url then
      match next_url with Some u => Next u | None => Break end
    else if (current_attempt <? MAX_ATTEMPTS_PER_URL)%nat then Continue
    else
      match next_url with
      | Some u => if str_truthy u then Next u else Break
      | None => Break
      end.

(** *** One attempt (the [try] block, lines 62-226) *)

Section Attempt.
Variable e : attempt_env.
Variable deadline : Z.
Variable max_iterations : nat.
Variables email secret : string.

(** Step 3 (lines 89-97): [downloaded_files] after the loop over
    [analysis.resources]. *)
Fixpoint download_all (rs : list resource)
    (downloaded_files : gmap string string) : gmap string string :=
  match rs with
  | [] => downloaded_files
  | r :: rs' =>
      if download r && opt_truthy (source_url r) then
        match source_url r with
        | Some u =>
            match download_resource e u with
            | Some file_path =>
                if str_truthy file_path
                then download_all rs' (<[u := file_path]> downloaded_files)
                else download_all rs' downloaded_files
            | None => download_all rs' downloaded_files
            end
        | None => download_all rs' downloaded_files
        end
      else download_all rs' downloaded_files
  end.

(** Step 4 (lines 100-108): a failure of the preprocessor leaves the
    metadata empty. *)
Definition preprocess (downloaded_files : gmap string string)
    : gmap string string :=
  if decide (downloaded_files = ∅) then ∅
  else
    match preprocess_downloaded_files e downloaded_files with
    | Ok file_metadata => file_metadata
    | Exn _ => ∅
    end.

(** Step 5 (lines 111-166): the [for iteration in range(1,
    max_iterations + 1)] loop, with [k] iterations still to run.
    Returns [answer] and [execution_history]. *)
Fixpoint agent_iterations (k iteration : nat)
    (execution_history : list iteration_record)
    : outcome (pyval * list iteration_record) :=
  match k with
  | O => mret (PyNone, execution_history)
  | S k' =>
      let ie := iter e iteration in
      if (deadline <=? it_now ie)%Z then mret (PyNone, execution_history)
      else
        agent_response ← lift (call_agent_llm ie execution_history);
        if negb (is_none (final_answer agent_response))
        then mret (final_answer agent_response, execution_history)
        else
          match code agent_response with
          | Some c =>
              if str_truthy c then
                exec_result ← execute_code (it_interp ie) c 60;
                let execution_history :=
                  execution_history ++ [IterationRecord iteration c exec_result] in
                if success exec_result && negb (is_none (result exec_result))
                then mret (result exec_result, execution_history)
                else agent_iterations k' (S iteration) execution_history
              else mret (PyNone, execution_history)
          | None => mret (PyNone, execution_history)
          end
  end.

(** [submission_response.get(...)] needs a dict. *)
Definition as_dict (r : submission_response) : res outcome_dict :=
  match r with
  | RespDict d => Ok d
  | RespOther => Exn "AttributeError: object has no attribute 'get'"
  end.

(** The body of the [try]: [Raises] is an exception that reaches the
    [except Exception] clause, [Escapes] one that passes it by. *)
Definition attempt_body (current_url : string)
    (url_attempt_counts : gmap string nat) : outcome control :=
  match extract_quiz_content e current_url with
  | None => mret Break
  | Some extraction =>
      analysis ← lift (call_analyzer_llm e extraction);
      let downloaded_files := download_all (resources analysis) ∅ in
      let file_metadata := preprocess downloaded_files in
      '(answer, execution_history) ← agent_iterations max_iterations 1 [];
      match submission_link analysis with
      | Some link =>
          if negb (is_none answer) then
            submission_response ←
              lift (submit_answer (post e) link email secret current_url answer).2;
            d ← lift (as_dict submission_response);
            mret (interpret_submission current_url url_attempt_counts d)
          else mret Break
      | None => mret Break
      end
  end.
End Attempt.

(** *** The loop ([run_quiz_agent], lines 33-232) *)

(** How [run_quiz_agent] ends: the loop is left, the summary is logged and
    the function returns; or an exception leaves the loop and the function.
    [final] is the session at that moment. *)
Inductive ending : Type :=
| Returned (final : session)
| Escaped (final : session) (err : string).

Definition final_session (x : ending) : session :=
  match x with
  | Returned final => final
  | Escaped final _ => final
  end.

Section Loop.
(** [env n] is what the outside world does during the pass on which
    [total_attempts] becomes [n]. *)
Variable env : nat -> pass_env.
Variable deadline : Z.
Variable max_iterations : nat.
Variables email secret : string.

(** One pass of the [while] body, from line 39 to the end of the body. *)
Definition loop_body (s : session) : control * session :=
  let pe := env (S (total_attempts s)) in
  let current_url := current_url s in
  let total_attempts := S (total_attempts s) in
  if (MAX_TOTAL_ATTEMPTS <? total_attempts)%nat then
    (Break, Session current_url total_attempts
              (url_attempt_counts s) (visited_urls s))
  else
    let url_attempt_counts :=
      <[current_url := attempts_of (url_attempt_counts s) current_url + 1]>
        (url_attempt_counts s) in
    if (MAX_ATTEMPTS_PER_URL <? attempts_of url_attempt_counts current_url)%nat
    then
      (Break, Session current_url total_attempts
                url_attempt_counts (visited_urls s))
    else
      let time_remaining := (deadline - now_guard pe)%Z in
      if (time_remaining <? seconds 10)%Z then
        (Break, Session current_url total_attempts
                  url_attempt_counts (visited_urls s))
      else
        let visited_urls := visited_urls s ++ [current_url] in
        let s' := Session current_url total_attempts
                    url_attempt_counts visited_urls in
        match attempt_body (attempt pe) deadline max_iterations email secret
                current_url url_attempt_counts with
        | Returns (Next next_url) =>
            (Next next_url, Session next_url total_attempts
                              url_attempt_counts visited_urls)
        | Returns flow => (flow, s')
        | Raises _ => (Continue, s')
        | Escapes err => (Propagate err, s')
        end.

(** [while current_url and datetime.now() < deadline: ...]; [None] when
    the fuel runs out before the loop is left. The loop is left by its
    condition, by a [break], or by an exception that passes through it. *)
Fixpoint while_loop (fuel : nat) (s : session) : option ending :=
  match fuel with
  | O => None
  | S fuel' =>
      if str_truthy (current_url s)
         && (now_top (env (S (total_attempts s))) <? deadline)%Z
      then
        match loop_body s with
        | (Break, s') => Some (Returned s')
        | (Propagate err, s') => Some (Escaped s' err)
        | (_, s') => while_loop fuel' s'
        end
      else Some (Returned s)
  end.

(** The state the loop starts from (lines 33-36). *)
Definition initial (quiz_url : string) : session :=
  Session quiz_url 0 ∅ [].

Definition run_quiz_agent (fuel : nat) (quiz_url : string) : option ending :=
  while_loop fuel (initial quiz_url).
End Loop.

End Agent.

(** ** The service boundary ([main.py]) *)

Module Main.
Import Py.

Record QuizRequest : Type := {
  email : string;
  secret : string;
  url : string
}.

(** What the caller of [/quiz] receives. *)
Inductive reply : Type :=
| QuizResponse (status message : string)
| HTTPException (status_code : nat) (detail : string).

(** What [handle_quiz] does, in program order. *)
Inductive event : Type :=
| AgentCalled (quiz_url : string) (deadline : Z)
| AgentReturned (final : Agent.session)
| AgentEscaped (final : Agent.session) (err : string)
| Replied (r : reply).

Section Handler.
(** [os.getenv] gives [None] for a variable that is not set. *)
Variables EXPECTED_SECRET EXPECTED_EMAIL : option string.
Variable env : nat -> Agent.pass_env.
(** [datetime.now()] on entry. *)
Variable start_time : Z.

(** [handle_quiz(request)]: [await run_quiz_agent(...)] runs the whole
    loop before the [return] after it is reached. An exception that leaves
    [run_quiz_agent] is one the [except Exception] clause of line 62 does
    not catch either: the handler ends without a reply of its own. [None]
    when the fuel given to the loop runs out. *)
Definition handle_quiz (fuel : nat) (request : QuizRequest)
    : option (list event) :=
  let deadline := (start_time + Agent.minutes 3)%Z in
  if decide (Some (secret request) = EXPECTED_SECRET) then
    if decide (Some (email request) = EXPECTED_EMAIL) then
      ending ← Agent.run_quiz_agent env deadline 2
                 (email request) (secret request) fuel (url request);
      match ending with
      | Agent.Returned final =>
          Some [AgentCalled (url request) deadline;
                AgentReturned final;
                Replied (QuizResponse "success" "Quiz processing initiated")]
      | Agent.Escaped final err =>
          Some [AgentCalled (url request) deadline;
                AgentEscaped final err]
      end
    else Some [Replied (HTTPException 403 "Email mismatch")]
  else Some [Replied (HTTPException 403 "Invalid secret")].
End Handler.

End Main.

(** ** Statements of the specification, and scripted collaborators *)

Module Scenario.
Import Py Executor Agent.

(** The result extraction as the specification words it: the value of the
    first of the four names that exists; the fallback only when none of
    them exists. *)
Definition named_exists (local_vars : pydict pyval) : bool :=
  existsb (fun var_name => dict_in var_name local_vars) result_names.

Definition extract_result_as_specified (local_vars : pydict pyval) : pyval :=
  if named_exists local_vars
  then first_named result_names local_vars
  else last_plain (rev local_vars).

(** A pass that gets beyond the three safety checks (to line 58). *)
Definition reaches_processing (env : nat -> pass_env) (deadline : Z)
    (s : session) : Prop :=
  total_attempts s < MAX_TOTAL_ATTEMPTS ∧
  attempts_of (url_attempt_counts s) (current_url s) < MAX_ATTEMPTS_PER_URL ∧
  (seconds 10 ≤ deadline - now_guard (env (S (total_attempts s))))%Z.

(** The attempt gets as far as submitting [answer] to [link]. *)
Definition reaches_submission (e : attempt_env) (deadline : Z)
    (max_iterations : nat) (current_url link : string) (answer : pyval)
    : Prop :=
  ∃ extraction analysis history,
    extract_quiz_content e current_url = Some extraction ∧
    call_analyzer_llm e extraction = Ok analysis ∧
    submission_link analysis = Some link ∧
    agent_iterations e deadline max_iterations 1 [] = Returns (answer, history) ∧
    is_none answer = false.

(** The round-trip succeeds and the server's verdict is the dict [d]. *)
Definition server_says (e : attempt_env) (link email secret current_url : string)
    (answer : pyval) (d : outcome_dict) : Prop :=
  post_and_parse (post e) (Request link email secret current_url answer) =
    Ok (RespDict d).

(** The round-trip fails: [client.post], [raise_for_status] or
    [response.json()] raises. *)
Definition transport_fails (post : network) (payload : request) (e : string)
    : Prop :=
  post_and_parse post payload = Exn e.

(** Number of processed attempts on the location [u]. *)
Definition processed_at (u : string) (visited_urls : list string) : nat :=
  length (filter (fun v => v = u) visited_urls).

(** What every pass of the loop keeps true of the session. *)
Definition session_inv (s : session) : Prop :=
  length (visited_urls s) ≤ total_attempts s ∧
  length (visited_urls s) ≤ MAX_TOTAL_ATTEMPTS ∧
  ∀ u, processed_at u (visited_urls s) ≤ attempts_of (url_attempt_counts s) u ∧
       processed_at u (visited_urls s) ≤ MAX_ATTEMPTS_PER_URL.

(** The per-location counters after the increment of line 47. *)
Definition counted (s : session) : gmap string nat :=
  <[current_url s := attempts_of (url_attempt_counts s) (current_url s) + 1]>
    (url_attempt_counts s).

(** The session at line 58, when the attempt starts. *)
Definition entered (s : session) : session :=
  Session (current_url s) (S (total_attempts s)) (counted s)
    (visited_urls s ++ [current_url s]).

(** The same session sent on to another location. *)
Definition moved_to (next_url : string) (s : session) : session :=
  Session next_url (total_attempts s) (url_attempt_counts s) (visited_urls s).

(** The outcome carries a next-location: a non-empty string. *)
Definition names_location (d : outcome_dict) (n : string) : Prop :=
  url d = Some n ∧ str_truthy n = true.

(** The outcome carries a next-location other than the current one. *)
Definition names_new_location (d : outcome_dict) (current_url : string) : Prop :=
  ∃ n, names_location d n ∧ n ≠ current_url.

(** *** Scripted collaborators *)

Definition some_extraction : extraction :=
  Extraction "Q1. What is 6 * 7?" [] [] "Q1. What is 6 * 7?".

Definition some_analysis : analysis :=
  Analysis "What is 6 * 7?" (Some "https://quiz.test/submit") [].

(** An interpreter on which every program raises. *)
Definition failing_interp : interpreter :=
  fun _ => Completed (Raised EmptyString EmptyString "Traceback: NameError").

(** An interpreter that leaves the given bindings, the result being
    printed without trouble. *)
Definition interp_leaving (local_vars : pydict pyval) : interpreter :=
  fun _ => Completed (Finished EmptyString EmptyString local_vars (Returns tt)).

(** An interpreter on which every program ends with [sys.exit(1)]. *)
Definition exiting_interp : interpreter :=
  fun _ => Completed (Exited EmptyString EmptyString "SystemExit: 1").

(** A collaborator that answers every request with the same code. *)
Definition always_code (c : string) (now : Z) (interp : interpreter) : iter_env :=
  IterEnv now (fun _ => Ok (AgentResponse (Some c) PyNone "try this")) interp.

(** A collaborator that answers at once. *)
Definition always_final (v : pyval) (now : Z) : iter_env :=
  IterEnv now (fun _ => Ok (AgentResponse None v "direct")) failing_interp.

Definition reply_with (d : outcome_dict) : network :=
  fun _ => Ok (HttpResponse 200 EmptyString (Ok (RespDict d))).

(** The server that always answers "incorrect" and names no next
    location. *)
Definition server_wrong : network :=
  reply_with (OutcomeDict false (Some "wrong") None).

(** The server that always answers "incorrect" and sends the client to a
    location it has not seen. *)
Definition server_onward : network :=
  fun payload =>
    Ok (HttpResponse 200 EmptyString
          (Ok (RespDict (OutcomeDict false (Some "wrong")
                           (Some (req_url payload +:+ "+"))))))%string.

Definition server_down : network :=
  fun _ => Exn "ConnectError: all connection attempts failed".

(** An attempt in which the collaborator answers 42 at once. *)
Definition attempt_answering (post : network) : attempt_env :=
  AttemptEnv (fun _ => Some some_extraction) (fun _ => Ok some_analysis)
    (fun _ => None) (fun _ => Ok ∅) (fun _ => always_final (PyInt 42) 0) post.

(** An attempt whose page cannot be extracted. *)
Definition attempt_no_page : attempt_env :=
  AttemptEnv (fun _ => None) (fun _ => Ok some_analysis)
    (fun _ => None) (fun _ => Ok ∅) (fun _ => always_final (PyInt 42) 0)
    server_wrong.

(** An attempt whose analysis fails. *)
Definition attempt_no_analysis : attempt_env :=
  AttemptEnv (fun _ => Some some_extraction)
    (fun _ => Exn "RuntimeError: LLM returned invalid JSON")
    (fun _ => None) (fun _ => Ok ∅) (fun _ => always_final (PyInt 42) 0)
    server_wrong.

(** The clock stands still at 0 and every pass looks the same. *)
Definition still (e : attempt_env) : nat -> pass_env :=
  fun _ => PassEnv 0 0 e.

(** The deadline [handle_quiz] sets when it starts at 0. *)
Definition three_minutes : Z := minutes 3.

(** Five seconds before that deadline when safety check 3 looks. *)
Definition last_seconds (e : attempt_env) : nat -> pass_env :=
  fun _ => PassEnv 0 (seconds 175) e.

Definition q1 : string := "https://quiz.test/q1".
Definition q2 : string := "https://quiz.test/q2".
Definition submit_url : string := "https://quiz.test/submit".
Definition me : string := "me@quiz.test".
Definition s3cret : string := "s3cret".

(** An attempt in which the collaborator keeps sending code that fails,
    while the clock passes the deadline before the second iteration. *)
Definition late_iterations : nat -> iter_env :=
  fun iteration =>
    always_code "answer = undefined_name"
      (if decide (iteration = 1) then 0 else three_minutes) failing_interp.

Definition attempt_late : attempt_env :=
  AttemptEnv (fun _ => Some some_extraction) (fun _ => Ok some_analysis)
    (fun _ => None) (fun _ => Ok ∅) late_iterations server_wrong.

(** The same collaborator with a clock that stands still. *)
Definition attempt_failing_code : attempt_env :=
  AttemptEnv (fun _ => Some some_extraction) (fun _ => Ok some_analysis)
    (fun _ => None) (fun _ => Ok ∅)
    (fun _ => always_code "answer = undefined_name" 0 failing_interp)
    server_wrong.

(** A collaborator whose code gives up with [sys.exit(1)]. *)
Definition attempt_exiting_code : attempt_env :=
  AttemptEnv (fun _ => Some some_extraction) (fun _ => Ok some_analysis)
    (fun _ => None) (fun _ => Ok ∅)
    (fun _ => always_code "import sys; sys.exit(1)" 0 exiting_interp)
    server_wrong.

(** A collaborator that fails on every request. *)
Definition attempt_no_reasoning : attempt_env :=
  AttemptEnv (fun _ => Some some_extraction) (fun _ => Ok some_analysis)
    (fun _ => None) (fun _ => Ok ∅)
    (fun _ => IterEnv 0 (fun _ => Exn "RuntimeError: LLM request failed")
                failing_interp)
    server_wrong.

End Scenario.

(** ** Finding the JSON object in a reply ([llm/agent_llm.py],
      [llm/analyzer_llm.py])

    A text is the list of its characters. The two functions only ask of a
    character whether it is one of the two braces. *)

Module AgentLLM.

(** [text.find(ch)]: the index of the first [ch]; [None] for -1. *)
Fixpoint find (ch : ascii) (text : list ascii) : option nat :=
  match text with
  | [] => None
  | c :: text' => if decide (c = ch) then Some 0 else S <$> find ch text'
  end.

(** The [while i < len(text)] loop of [_extract_json], with [rest] the
    characters from index [i] on. Returns the index at which the loop
    returns, [None] when it runs off the end. The top of the stack is the
    head of the list. *)
Fixpoint scan (stack : list ascii) (i : nat) (rest : list ascii) : option nat :=
  match rest with
  | [] => None
  | ch :: rest' =>
      if decide (ch = "{"%char) then scan ("{"%char :: stack) (S i) rest'
      else if decide (ch = "}"%char) then
        match stack with
        | _ :: stack' =>
            match stack' with
            | [] => Some i
            | _ :: _ => scan stack' (S i) rest'
            end
        | [] => scan stack (S i) rest'
        end
      else scan stack (S i) rest'
  end.

(** [_extract_json(text)]: [text[start : i + 1]], or [None]. *)
Definition _extract_json (text : list ascii) : option (list ascii) :=
  match find "{"%char text with
  | None => None
  | Some start =>
      match scan [] start (drop start text) with
      | Some i => Some (drop start (take (S i) text))
      | None => None
      end
  end.

(** Number of opening and of closing braces. *)
Definition opens (l : list ascii) : nat :=
  length (filter (fun c => c = "{"%char) l).
Definition closes (l : list ascii) : nat :=
  length (filter (fun c => c = "}"%char) l).

(** The characters of a string literal, for writing texts down. *)
Definition chars (s : string) : list ascii := String.list_ascii_of_string s.

End AgentLLM.

Module AnalyzerLLM.

(** The loop of [_extract_json_from_text], which spells out the [else:
    pass] for a closing brace met with an empty stack. *)
Fixpoint scan (stack : list ascii) (i : nat) (rest : list ascii) : option nat :=
  match rest with
  | [] => None
  | ch :: rest' =>
      if decide (ch = "{"%char) then scan ("{"%char :: stack) (S i) rest'
      else if decide (ch = "}"%char) then
        match stack with
        | _ :: stack' =>
            match stack' with
            | [] => Some i
            | _ :: _ => scan stack' (S i) rest'
            end
        | [] => scan stack (S i) rest'
        end
      else scan stack (S i) rest'
  end.

(** [_extract_json_from_text(text)] *)
Definition _extract_json_from_text (text : list ascii) : option (list ascii) :=
  match AgentLLM.find "{"%char text with
  | None => None
  | Some start =>
      match scan [] start (drop start text) with
      | Some i => Some (drop start (take (S i) text))
      | None => None
      end
  end.

End AnalyzerLLM.

(** ** What passes through the sandbox ([core/code_executor.py]) *)

Module Sandbox.
Import Py Executor.


End Sandbox.

(** ** The figures of the final summary ([core/agent_loop.py], lines 237
      and 238) *)

Module Report.
Import Agent.

(** The two figures the summary logs once the loop has been left without
    an exception: [total_attempts] and [len(set(visited_urls))]. *)
Record summary : Type := Summary {
  reported_total : nat;
  unique_urls : nat
}.

Definition final_summary (s : session) : summary :=
  {| reported_total := total_attempts s;
     unique_urls := size (list_to_set (visited_urls s) : gset string) |}.

(** The counters of a session that is about to start a pass: they count
    the processed attempts and nothing else. *)
Definition in_step (s : session) : Prop :=
  total_attempts s = length (visited_urls s) ∧
  ∀ u, Agent.attempts_of (url_attempt_counts s) u =
       Scenario.processed_at u (visited_urls s).

(** The counters of a session whose last pass may have been cut off. *)
Definition settled (s : session) : Prop :=
  length (visited_urls s) ≤ total_attempts s ≤ S (length (visited_urls s)) ∧
  ∀ u, Scenario.processed_at u (visited_urls s)
       ≤ Agent.attempts_of (url_attempt_counts s) u
       ≤ S (Scenario.processed_at u (visited_urls s)).

End Report.

(** ** What step 3 of an attempt asks for and gets ([core/agent_loop.py],
      lines 89-97) *)

Module Downloads.
Import Py Agent.

(** Some resource of the analysis asks for [u] to be downloaded. *)
Definition requested (rs : list resource) (u : string) : Prop :=
  ∃ r, r ∈ rs ∧ download r = true ∧ source_url r = Some u ∧ str_truthy u = true.

(** The downloader delivers the file [file_path] for [u]. *)
Definition delivered (e : attempt_env) (u file_path : string) : Prop :=
  download_resource e u = Some file_path ∧ str_truthy file_path = true.

(** The same two tests as the loop makes them. *)
Definition asks (r : resource) (u : string) : bool :=
  download r && bool_decide (source_url r = Some u) && str_truthy u.

Definition fetch (e : attempt_env) (u : string) : option string :=
  match download_resource e u with
  | Some file_path => if str_truthy file_path then Some file_path else None
  | None => None
  end.

End Downloads.

(** ** The tables of a page ([core/extractor.py], [extract_tables]) *)

Module Extractor.

(** [sep.join(items)] *)
Fixpoint join (sep : string) (items : list string) : string :=
  match items with
  | [] => EmptyString
  | [x] => x
  | x :: rest => x +:+ sep +:+ join sep rest
  end.

Definition newline : ascii := "010"%char.

(** A [table] element as the function reads it: its [tr] descendants, each
    with the stripped texts of its [td] and [th] descendants. *)
Definition html_row : Type := list string.
Definition html_table : Type := list html_row.

(** The text made of one table (lines 107-111). *)
Definition table_text (rows : html_table) : string :=
  join (String newline EmptyString) (join " | " <$> rows).

(** The loop over [soup.find_all('table')[:5]], with [tables] the list
    built so far. *)
Fixpoint tables_loop (max_size : nat) (todo : list html_table)
    (tables : list string) : list string :=
  match todo with
  | [] => tables
  | rows :: todo' =>
      if (length rows <=? max_size)%nat
      then tables_loop max_size todo' (tables ++ [table_text rows])
      else tables_loop max_size todo' tables
  end.

(** [extract_tables(soup, max_size)], given [soup.find_all('table')]. *)
Definition extract_tables (soup_tables : list html_table) (max_size : nat)
    : list string :=
  tables_loop max_size (take 5 soup_tables) [].

End Extractor.

(** ** The preview of a text file ([core/preprocessor.py],
      [_extract_text_metadata]) *)

Module Preprocessor.

Definition newline : ascii := "010"%char.

(** [content.split('\n')]: never empty; an empty text is one empty line. *)
Fixpoint split_lines (content : list ascii) : list (list ascii) :=
  match content with
  | [] => [[]]
  | c :: rest =>
      if decide (c = newline) then [] :: split_lines rest
      else
        match split_lines rest with
        | line :: lines => (c :: line) :: lines
        | [] => [[c]]
        end
  end.

(** ['\n'.join(lines)] *)
Fixpoint join_lines (lines : list (list ascii)) : list ascii :=
  match lines with
  | [] => []
  | [line] => line
  | line :: rest => line ++ newline :: join_lines rest
  end.

(** The dictionary the function returns when the file can be read. *)
Record text_metadata : Type := TextMetadata {
  size_bytes : nat;
  line_count : nat;
  preview : list ascii;
  full_content : option (list ascii)
}.

(** [_extract_text_metadata(filepath)], given what opening and reading the
    file does; on the right the [error] of the dictionary returned when
    that raises. *)
Definition _extract_text_metadata (read : Agent.res (list ascii))
    : text_metadata + string :=
  match read with
  | Agent.Ok content =>
      let lines := split_lines content in
      inl {| size_bytes := length content;
             line_count := length lines;
             preview := join_lines (take 20 lines);
             full_content :=
               if (length content <? 5000)%nat then Some content else None |}
  | Agent.Exn e => inr e
  end.

(** Number of line breaks of a text. *)
Definition breaks (content : list ascii) : nat :=
  length (filter (fun c => c = newline) content).

End Preprocessor.

(** ** More scripted inputs *)

Module Scripts.
Import Py Executor Agent Scenario.

(** A reply that wraps its JSON object in prose. *)
Definition wrapped_reply : list ascii :=
  AgentLLM.chars "Sure: {'final_answer': {'sum': 42}} done".
Definition wrapped_object : list ascii :=
  AgentLLM.chars "{'final_answer': {'sum': 42}}".

(** Bindings without any of the result names. *)
Definition plain_bindings : pydict pyval :=
  [("x", PyInt 1); ("helper", PyFunc "helper"); ("_tmp", PyInt 2)].

(** The same bindings in two orders. *)
Definition answer_first : pydict pyval := [("answer", PyInt 42); ("x", PyInt 1)].
Definition answer_last : pydict pyval := [("x", PyInt 1); ("answer", PyInt 42)].

(** A collaborator that sends neither an answer nor code. *)
Definition attempt_silent : attempt_env :=
  AttemptEnv (fun _ => Some some_extraction) (fun _ => Ok some_analysis)
    (fun _ => None) (fun _ => Ok ∅)
    (fun _ => IterEnv 0 (fun _ => Ok (AgentResponse None PyNone "no idea"))
                failing_interp)
    server_wrong.

(** A server that answers with a JSON array. *)
Definition server_odd : network :=
  fun _ => Ok (HttpResponse 200 EmptyString (Ok RespOther)).

(** A collaborator whose code fails on the first iteration and computes 42
    on the second. *)
Definition second_try : nat -> iter_env :=
  fun iteration =>
    always_code "answer = 6 * 7" 0
      (if decide (iteration = 1) then failing_interp
       else interp_leaving [("answer", PyInt 42)]).

Definition attempt_second_try : attempt_env :=
  AttemptEnv (fun _ => Some some_extraction) (fun _ => Ok some_analysis)
    (fun _ => None) (fun _ => Ok ∅) second_try server_wrong.

Definition first_record : iteration_record :=
  IterationRecord 1 "answer = 6 * 7"
    (ExecResult false PyNone EmptyString EmptyString (Some "Traceback: NameError")).
Definition second_record : iteration_record :=
  IterationRecord 2 "answer = 6 * 7"
    (ExecResult true (PyInt 42) EmptyString EmptyString None).

(** The session of [always_wrong_two_attempts] when it ends. *)
Definition two_attempts : session := Session q1 2 {[ q1 := 2 ]} [q1; q1].

End Scripts.

(** * Properties *)

(** ** Result extraction *)

Section ExecutorFacts.
Import Py Executor Scenario.

Lemma first_named_absent names local_vars :
  forallb (fun n => negb (dict_in n local_vars)) names = true ->
  first_named names local_vars = PyNone.
Proof.
  induction names as [|n names IH]; simpl; [done|].
  intros [Hn Hrest]%andb_prop.
  destruct (dict_in n local_vars); [discriminate|]. by apply IH.
Qed.

Lemma named_exists_false local_vars :
  named_exists local_vars = false ->
  first_named result_names local_vars = PyNone.
Proof.
  intros H. apply first_named_absent.
  unfold named_exists, result_names in *. simpl in *.
  repeat (destruct (dict_in _ local_vars); simpl in *; try discriminate).
  done.
Qed.

Lemma first_named_some local_vars :
  first_named result_names local_vars ≠ PyNone ->
  named_exists local_vars = true.
Proof.
  intros H. destruct (named_exists local_vars) eqn:E; [done|].
  by apply named_exists_false in E.
Qed.

(** When none of the four names is bound, the fallback decides. *)
Lemma extract_result_unnamed local_vars :
  named_exists local_vars = false ->
  extract_result local_vars = last_plain (rev local_vars).
Proof.
  intros H. unfold extract_result. rewrite (named_exists_false _ H). simpl.
  by destruct local_vars.
Qed.

(** When the first bound name holds a value other than [None], that value
    is the result. *)
Lemma extract_result_named local_vars :
  is_none (first_named result_names local_vars) = false ->
  extract_result local_vars = first_named result_names local_vars.
Proof. intros H. unfold extract_result. by rewrite H. Qed.

(** The code and the specification agree except when the first bound name
    holds [None]. *)
Lemma extract_result_agrees local_vars :
  named_exists local_vars = false ∨
  is_none (first_named result_names local_vars) = false ->
  extract_result local_vars = extract_result_as_specified local_vars.
Proof.
  intros [H|H]; unfold extract_result_as_specified.
  - rewrite H. by apply extract_result_unnamed.
  - rewrite first_named_some; [by apply extract_result_named|].
    by destruct (first_named result_names local_vars).
Qed.

(** The sandbox on the programs the specification tests it with. *)
Example answer_is_found :
  execute_code (interp_leaving [("answer", PyInt 42)]) "answer = 42" 60
  = Returns (ExecResult true (PyInt 42) EmptyString EmptyString None).
Proof. reflexivity. Qed.

Example last_binding_fallback :
  execute_code (interp_leaving [("x", PyStr "hi")]) "x = 'hi'" 60
  = Returns (ExecResult true (PyStr "hi") EmptyString EmptyString None).
Proof. reflexivity. Qed.

Example fallback_skips_callables_and_private_names :
  extract_result [("x", PyInt 1); ("f", PyFunc "f"); ("_tmp", PyInt 2)]
  = PyInt 1.
Proof. reflexivity. Qed.

Example raising_code :
  execute_code failing_interp "1/0" 60
  = Returns (ExecResult false PyNone EmptyString EmptyString
               (Some "Traceback: NameError")).
Proof. reflexivity. Qed.

Example timeout_leaves_nothing :
  execute_code (fun _ => TimedOut) "while True: pass" 60
  = Returns (ExecResult false PyNone EmptyString EmptyString
               (Some "Code execution timeout (60s)")).
Proof. vm_compute. reflexivity. Qed.

(** A result that cannot be printed is reported as a failure of the code,
    and its value is lost. *)
Example unprintable_result :
  execute_code
    (fun _ => Completed (Finished EmptyString EmptyString [("answer", PyInt 42)]
                           (Raises "Traceback: UnicodeEncodeError")))
    "answer = 42" 60
  = Returns (ExecResult false PyNone EmptyString EmptyString
               (Some "Traceback: UnicodeEncodeError")).
Proof. reflexivity. Qed.

Example exiting_code :
  execute_code exiting_interp "import sys; sys.exit(1)" 60
  = Escapes "SystemExit: 1".
Proof. reflexivity. Qed.

(** C1: the program [result = None; x = 5] leaves [result] bound to
    [None], which the specification makes the result; [execute_code]
    falls back to the last plain binding and returns 5. *)
Theorem execute_code_none_result_falls_back :
  let local_vars := dict_set "x" (PyInt 5) (dict_set "result" PyNone []) in
  wf_dict local_vars ∧
  dict_get "result" local_vars = Some PyNone ∧
  (∃ r, execute_code (interp_leaving local_vars) "result = None; x = 5" 60
          = Returns r ∧
        success r = true ∧
        result r = PyInt 5) ∧
  extract_result_as_specified local_vars = PyNone.
Proof.
  split; [unfold wf_dict; by apply (bool_decide_unpack _)|].
  split; [reflexivity|]. split; [|reflexivity].
  eexists. split; [reflexivity|]. split; reflexivity.
Qed.
End ExecutorFacts.

(** ** The attempt counters *)

(** Turn the outcome of a comparison of the code into a proposition. *)
Ltac comparisons :=
  repeat match goal with
  | H : (_ <? _)%nat = true |- _ => apply Nat.ltb_lt in H
  | H : (_ <? _)%nat = false |- _ => apply Nat.ltb_ge in H
  | H : (_ <? _)%Z = true |- _ => apply Z.ltb_lt in H
  | H : (_ <? _)%Z = false |- _ => apply Z.ltb_ge in H
  | H : (_ <=? _)%Z = true |- _ => apply Z.leb_le in H
  | H : (_ <=? _)%Z = false |- _ => apply Z.leb_gt in H
  | H : _ && _ = true |- _ => apply andb_prop in H; destruct H
  end.

(** Split a pass along the branches of [loop_body]. *)
Ltac pass_cases :=
  unfold Agent.loop_body; repeat case_match; simplify_eq/=; comparisons.

Section CounterFacts.
Import Py Executor Agent Scenario.

Lemma attempts_of_insert (counts : gmap string nat) u v n :
  attempts_of (<[u := n]> counts) v =
    if decide (u = v) then n else attempts_of counts v.
Proof. unfold attempts_of. rewrite lookup_insert. by case_decide. Qed.

Lemma processed_at_snoc u v (l : list string) :
  processed_at u (l ++ [v]) =
    processed_at u l + (if decide (v = u) then 1 else 0).
Proof.
  unfold processed_at. rewrite filter_app, length_app. f_equal.
  rewrite filter_cons, filter_nil. by case_decide.
Qed.

Lemma session_inv_initial quiz_url : session_inv (initial quiz_url).
Proof.
  unfold session_inv, initial, processed_at, attempts_of; simpl.
  split; [lia|]. split; [lia|]. intros u. rewrite lookup_empty. simpl. lia.
Qed.

Context (env : nat -> pass_env) (deadline : Z) (max_iterations : nat).
Context (email secret : string).

Local Abbreviation body := (loop_body env deadline max_iterations email secret).
Local Abbreviation loop := (while_loop env deadline max_iterations email secret).

(** Every pass counts: the global counter goes up by exactly one. *)
Lemma loop_body_total_attempts s :
  total_attempts (body s).2 = S (total_attempts s).
Proof. pass_cases; done. Qed.

(** A pass that starts at the global ceiling is cut off. *)
Lemma loop_body_at_ceiling s :
  MAX_TOTAL_ATTEMPTS ≤ total_attempts s -> (body s).1 = Break.
Proof.
  intros H. pass_cases; try done; unfold MAX_TOTAL_ATTEMPTS in *; lia.
Qed.

(** A pass touches the counter of its own location only. *)
Lemma loop_body_other_location s u :
  u ≠ current_url s ->
  attempts_of (url_attempt_counts (body s).2) u =
    attempts_of (url_attempt_counts s) u.
Proof.
  intros Hu. pass_cases; try done;
    rewrite attempts_of_insert; by case_decide.
Qed.

Lemma loop_body_inv s : session_inv s -> session_inv (body s).2.
Proof.
  unfold session_inv, MAX_TOTAL_ATTEMPTS, MAX_ATTEMPTS_PER_URL.
  intros (Hlen & Hmax & Hloc).
  pass_cases; unfold MAX_TOTAL_ATTEMPTS, MAX_ATTEMPTS_PER_URL in *;
    (split; [|split]); try (rewrite ?length_app; simpl; lia);
    intros u; destruct (Hloc u) as [Hu1 Hu2];
    rewrite ?attempts_of_insert, ?processed_at_snoc in *;
    repeat case_decide; simplify_eq; lia.
Qed.
End CounterFacts.

(** ** Termination and the ceilings *)

Section Termination.
Import Py Executor Agent Scenario.

Context (env : nat -> pass_env) (deadline : Z) (max_iterations : nat).
Context (email secret : string).

Local Abbreviation body := (loop_body env deadline max_iterations email secret).
Local Abbreviation loop := (while_loop env deadline max_iterations email secret).

(** Fuel that is left over does not change the result. *)
Lemma while_loop_more_fuel fuel extra s ending :
  loop fuel s = Some ending -> loop (fuel + extra) s = Some ending.
Proof.
  revert s. induction fuel as [|fuel IH]; intros s; simpl; [done|].
  destruct (str_truthy _ && _); [|done].
  destruct (body s) as [[| |next_url|err] s']; auto.
Qed.

(** From a session below the global ceiling, the loop is left within the
    passes that remain up to one beyond the ceiling. *)
Lemma while_loop_terminates fuel s :
  total_attempts s ≤ MAX_TOTAL_ATTEMPTS ->
  MAX_TOTAL_ATTEMPTS < total_attempts s + fuel ->
  session_inv s ->
  ∃ ending,
    loop fuel s = Some ending ∧
    session_inv (final_session ending) ∧
    total_attempts s ≤ total_attempts (final_session ending)
      ≤ S MAX_TOTAL_ATTEMPTS.
Proof.
  revert s. induction fuel as [|fuel IH]; intros s Hle Hfuel Hinv.
  { lia. }
  simpl. destruct (str_truthy _ && _).
  2:{ exists (Returned s). split; [done|]. split; [done|]. simpl. lia. }
  pose proof (loop_body_total_attempts env deadline max_iterations email secret s) as Htot.
  pose proof (loop_body_inv env deadline max_iterations email secret s Hinv) as Hinv'.
  pose proof (loop_body_at_ceiling env deadline max_iterations email secret s) as Hceil.
  destruct (body s) as [c s'] eqn:Hbody. simpl in *.
  assert (c ≠ Break ->
          ∃ ending, loop fuel s' = Some ending ∧
                    session_inv (final_session ending) ∧
                    total_attempts s' ≤ total_attempts (final_session ending)
                      ≤ S MAX_TOTAL_ATTEMPTS)
    as Hrest.
  { intros Hc. apply IH; [|lia|done].
    destruct (decide (MAX_TOTAL_ATTEMPTS ≤ total_attempts s)) as [Hge|]; [|lia].
    by specialize (Hceil Hge). }
  assert (total_attempts s' ≤ S MAX_TOTAL_ATTEMPTS) as Hcap by lia.
  destruct c as [| |next_url|err].
  - exists (Returned s'). split; [done|]. split; [done|]. simpl. lia.
  - destruct Hrest as (ending & Hrun & Hfin & Hmono); [done|].
    exists ending. split; [done|]. split; [done|]. lia.
  - destruct Hrest as (ending & Hrun & Hfin & Hmono); [done|].
    exists ending. split; [done|]. split; [done|]. lia.
  - exists (Escaped s' err). split; [done|]. split; [done|]. simpl. lia.
Qed.

(** C2: whatever the collaborators, the executed code and the server do,
    the loop is left within 31 passes; at most 30 attempts were processed,
    at most 2 of them on any one location; and no pass lowers the global
    counter. *)
Theorem attempts_bounded quiz_url :
  ∃ ending,
    (∀ extra,
       run_quiz_agent env deadline max_iterations email secret
         (S MAX_TOTAL_ATTEMPTS + extra) quiz_url = Some ending) ∧
    length (visited_urls (final_session ending)) ≤ MAX_TOTAL_ATTEMPTS ∧
    (∀ u, processed_at u (visited_urls (final_session ending))
          ≤ MAX_ATTEMPTS_PER_URL) ∧
    total_attempts (final_session ending) ≤ S MAX_TOTAL_ATTEMPTS ∧
    (∀ s, total_attempts s ≤ total_attempts (body s).2).
Proof.
  destruct (while_loop_terminates (S MAX_TOTAL_ATTEMPTS) (initial quiz_url))
    as (ending & Hrun & (_ & Hlen & Hloc) & Hmono).
  { simpl. lia. }
  { simpl. lia. }
  { apply session_inv_initial. }
  exists ending. repeat split.
  - intros extra. by apply while_loop_more_fuel.
  - done.
  - intros u. apply Hloc.
  - lia.
  - intros s. rewrite loop_body_total_attempts. lia.
Qed.
End Termination.

Section AdversarialServer.
Import Py Executor Agent Scenario.

(** Against the server that always answers "incorrect" and names no next
    location, the session makes two attempts on its location and stops. *)
Example always_wrong_two_attempts :
  run_quiz_agent (still (attempt_answering server_wrong)) three_minutes 2
    "me@quiz.test" "s3cret" 31 "https://quiz.test/q1"
  = Some (Returned (Session "https://quiz.test/q1" 2
                      {[ "https://quiz.test/q1" := 2 ]}
                      ["https://quiz.test/q1"; "https://quiz.test/q1"])).
Proof. vm_compute. reflexivity. Qed.
End AdversarialServer.

(** ** One pass and its attempt *)

Section PassFacts.
Import Py Executor Agent Scenario.

Context (env : nat -> pass_env) (deadline : Z) (max_iterations : nat).
Context (email secret : string).

Local Abbreviation body := (loop_body env deadline max_iterations email secret).

(** A pass that gets beyond the safety checks runs the attempt on the
    counted session and ends as the attempt says; an exception the
    [except] clause catches is a [continue], one it does not catch leaves
    the body. *)
Lemma loop_body_processed s :
  reaches_processing env deadline s ->
  body s =
    match attempt_body (attempt (env (S (total_attempts s)))) deadline
            max_iterations email secret (current_url s) (counted s) with
    | Returns (Next next_url) => (Next next_url, moved_to next_url (entered s))
    | Returns flow => (flow, entered s)
    | Raises _ => (Continue, entered s)
    | Escapes err => (Propagate err, entered s)
    end.
Proof.
  unfold reaches_processing, MAX_TOTAL_ATTEMPTS, MAX_ATTEMPTS_PER_URL.
  intros (Htot & Hloc & Htime). unfold loop_body, counted, entered, moved_to.
  rewrite attempts_of_insert. case_decide; [|done].
  unfold MAX_TOTAL_ATTEMPTS, MAX_ATTEMPTS_PER_URL.
  destruct (30 <? S (total_attempts s))%nat eqn:E1; comparisons; [lia|].
  destruct (2 <? _ + 1)%nat eqn:E2; comparisons; [lia|].
  destruct (_ <? seconds 10)%Z eqn:E3; comparisons; [lia|].
  reflexivity.
Qed.

Lemma attempts_of_counted s :
  attempts_of (counted s) (current_url s) =
    S (attempts_of (url_attempt_counts s) (current_url s)).
Proof. unfold counted. rewrite attempts_of_insert. case_decide; [lia|done]. Qed.

(** An attempt that reaches submission ends as [interpret_submission]
    says of the dict [submit_answer] returns. *)
Lemma attempt_body_submitted e current_url counts link answer d :
  reaches_submission e deadline max_iterations current_url link answer ->
  (submit_answer (post e) link email secret current_url answer).2 =
    Ok (RespDict d) ->
  attempt_body e deadline max_iterations email secret current_url counts =
    Returns (interpret_submission current_url counts d).
Proof.
  intros (x & a & h & Hx & Ha & Hlink & Hit & Hans) Hsub.
  unfold attempt_body. rewrite Hx, Ha. simpl. rewrite Hit. simpl.
  rewrite Hlink, Hans. unfold submit_answer in *. simpl in *.
  rewrite Hsub. reflexivity.
Qed.

Lemma submit_answer_says e link current_url answer d :
  server_says e link email secret current_url answer d ->
  (submit_answer (post e) link email secret current_url answer).2 =
    Ok (RespDict d).
Proof. unfold server_says, submit_answer. simpl. by intros ->. Qed.

Lemma submit_answer_fails post link current_url answer msg :
  transport_fails post (Request link email secret current_url answer) msg ->
  (submit_answer post link email secret current_url answer).2 =
    Ok (RespDict (OutcomeDict false (Some msg) None)).
Proof. unfold transport_fails, submit_answer. simpl. by intros ->. Qed.
End PassFacts.

(** ** Interpreting the verdict of the server *)

Section VerdictFacts.
Import Py Executor Agent Scenario.

(** The test of line 203 is the test for a new location. *)
Lemma new_location_test d current_url :
  opt_truthy (url d) && differs (url d) current_url = true <->
  names_new_location d current_url.
Proof.
  unfold names_new_location, names_location, opt_truthy, differs. split.
  - destruct (url d) as [n|]; [|done]. intros [Hn Hd]%andb_prop.
    case_decide; [done|]. by exists n.
  - intros (n & [-> Hn] & Hne). rewrite Hn. by case_decide.
Qed.

Lemma no_new_location_test d current_url :
  ¬ names_new_location d current_url ->
  opt_truthy (url d) && differs (url d) current_url = false.
Proof.
  intros H. apply not_true_is_false. by rewrite new_location_test.
Qed.

Lemma interpret_incorrect_new current_url counts d n :
  correct d = false -> names_location d n -> n ≠ current_url ->
  interpret_submission current_url counts d = Next n.
Proof.
  intros Hc [Hu Hn] Hne. unfold interpret_submission. rewrite Hc.
  assert (names_new_location d current_url) as Hnew by (by exists n).
  apply new_location_test in Hnew. rewrite Hnew. by rewrite Hu.
Qed.

Lemma interpret_incorrect_retry current_url counts d :
  correct d = false -> ¬ names_new_location d current_url ->
  attempts_of counts current_url < MAX_ATTEMPTS_PER_URL ->
  interpret_submission current_url counts d = Continue.
Proof.
  intros Hc Hnew%no_new_location_test Hlt. unfold interpret_submission.
  rewrite Hc, Hnew. simpl. by apply Nat.ltb_lt in Hlt as ->.
Qed.

Lemma interpret_incorrect_exhausted current_url counts d :
  correct d = false -> ¬ names_new_location d current_url ->
  ¬ attempts_of counts current_url < MAX_ATTEMPTS_PER_URL ->
  (∀ n, names_location d n -> interpret_submission current_url counts d = Next n) ∧
  (opt_truthy (url d) = false -> interpret_submission current_url counts d = Break).
Proof.
  intros Hc Hnew%no_new_location_test Hge. unfold interpret_submission.
  rewrite Hc, Hnew. simpl.
  apply Nat.nlt_ge, Nat.ltb_ge in Hge. rewrite Hge. split.
  - intros n [-> Hn]. by rewrite Hn.
  - unfold opt_truthy. destruct (url d); [by intros ->|done].
Qed.

Lemma interpret_correct current_url counts d :
  correct d = true ->
  (opt_truthy (url d) = false -> interpret_submission current_url counts d = Break) ∧
  (url d = Some current_url -> interpret_submission current_url counts d = Break) ∧
  (∀ n, names_location d n -> n ≠ current_url ->
        interpret_submission current_url counts d = Next n).
Proof.
  intros Hc. unfold interpret_submission, opt_truthy. rewrite Hc.
  split; [|split].
  - destruct (url d); [by intros ->|done].
  - intros ->. destruct (str_truthy current_url); [|done]. by case_decide.
  - intros n [-> Hn] Hne. rewrite Hn. by case_decide.
Qed.

Context (env : nat -> pass_env) (deadline : Z) (max_iterations : nat).
Context (email secret : string).

Local Abbreviation body := (loop_body env deadline max_iterations email secret).

(** A pass whose attempt gets the dict [d] back from [submit_answer]. *)
Lemma loop_body_verdict s link answer d :
  reaches_processing env deadline s ->
  reaches_submission (attempt (env (S (total_attempts s)))) deadline
    max_iterations (current_url s) link answer ->
  (submit_answer (post (attempt (env (S (total_attempts s))))) link email
     secret (current_url s) answer).2 = Ok (RespDict d) ->
  body s =
    match interpret_submission (current_url s) (counted s) d with
    | Next next_url => (Next next_url, moved_to next_url (entered s))
    | c => (c, entered s)
    end.
Proof.
  intros Hp Hs Hd. rewrite (loop_body_processed _ _ _ _ _ _ Hp).
  rewrite (attempt_body_submitted _ _ _ _ _ _ _ _ _ _ Hs Hd).
  by destruct (interpret_submission _ _ _).
Qed.

(** C4: an answer judged incorrect. If the outcome names a location
    other than the current one, the session moves there, and the counter
    of the old location stays where this attempt left it, also over the
    next pass; otherwise the same location is retried while its count is
    below the ceiling; otherwise the session moves to the location the
    outcome names, and stops if it names none. *)
Theorem incorrect_answer_policy s link answer d :
  reaches_processing env deadline s ->
  reaches_submission (attempt (env (S (total_attempts s)))) deadline
    max_iterations (current_url s) link answer ->
  server_says (attempt (env (S (total_attempts s)))) link email secret
    (current_url s) answer d ->
  correct d = false ->
  let here := current_url s in
  let tried := S (attempts_of (url_attempt_counts s) here) in
  (∀ n, names_location d n -> n ≠ here ->
     body s = (Next n, moved_to n (entered s)) ∧
     attempts_of (url_attempt_counts (body s).2) here = tried ∧
     attempts_of (url_attempt_counts (body (body s).2).2) here = tried) ∧
  (¬ names_new_location d here -> tried < MAX_ATTEMPTS_PER_URL ->
     body s = (Continue, entered s)) ∧
  (¬ names_new_location d here -> ¬ tried < MAX_ATTEMPTS_PER_URL ->
     ∀ n, names_location d n -> body s = (Next n, moved_to n (entered s))) ∧
  (¬ names_new_location d here -> ¬ tried < MAX_ATTEMPTS_PER_URL ->
     opt_truthy (url d) = false -> body s = (Break, entered s)).
Proof.
  intros Hp Hs Hd%submit_answer_says Hc here tried.
  pose proof (loop_body_verdict s link answer d Hp Hs Hd) as Hbody.
  pose proof (attempts_of_counted s) as Hcount. fold here tried in Hcount.
  split; [|split; [|split]].
  - intros n Hn Hne.
    rewrite (interpret_incorrect_new _ _ _ _ Hc Hn Hne) in Hbody.
    rewrite Hbody. split; [done|]. split; [done|].
    rewrite loop_body_other_location; [done|]. simpl. congruence.
  - intros Hnew Hlt. rewrite interpret_incorrect_retry in Hbody; try done.
    fold here. by rewrite Hcount.
  - intros Hnew Hge n Hn.
    destruct (interpret_incorrect_exhausted here (counted s) d Hc Hnew) as [H _].
    { by rewrite Hcount. }
    fold here in Hbody. by rewrite (H n Hn) in Hbody.
  - intros Hnew Hge Hnone.
    destruct (interpret_incorrect_exhausted here (counted s) d Hc Hnew) as [_ H].
    { by rewrite Hcount. }
    fold here in Hbody. by rewrite (H Hnone) in Hbody.
Qed.

(** C5: an answer judged correct. The session stops when the outcome
    names no next location and when it names the current one; otherwise
    the current location becomes the one it names. *)
Theorem correct_answer_policy s link answer d :
  reaches_processing env deadline s ->
  reaches_submission (attempt (env (S (total_attempts s)))) deadline
    max_iterations (current_url s) link answer ->
  server_says (attempt (env (S (total_attempts s)))) link email secret
    (current_url s) answer d ->
  correct d = true ->
  (opt_truthy (url d) = false -> body s = (Break, entered s)) ∧
  (url d = Some (current_url s) -> body s = (Break, entered s)) ∧
  (∀ n, names_location d n -> n ≠ current_url s ->
     body s = (Next n, moved_to n (entered s)) ∧ current_url (body s).2 = n).
Proof.
  intros Hp Hs Hd%submit_answer_says Hc.
  pose proof (loop_body_verdict s link answer d Hp Hs Hd) as Hbody.
  destruct (interpret_correct (current_url s) (counted s) d Hc)
    as (Hnone & Hsame & Hnext).
  split; [|split].
  - intros H. by rewrite (Hnone H) in Hbody.
  - intros H. by rewrite (Hsame H) in Hbody.
  - intros n Hn Hne. rewrite (Hnext n Hn Hne) in Hbody. by rewrite Hbody.
Qed.
End VerdictFacts.

(** ** The submission client *)

Section SubmissionFacts.
Import Py Executor Agent Scenario.

Context (post : network) (url email secret quiz_url : string) (answer : pyval).

Local Abbreviation payload := (Request url email secret quiz_url answer).

Lemma raise_for_status_failure resp :
  ¬ (200 ≤ status_code resp < 300) ->
  raise_for_status resp = Exn (status_error resp).
Proof.
  intros H. unfold raise_for_status.
  destruct (200 <=? status_code resp)%nat eqn:E1;
    destruct (status_code resp <? 300)%nat eqn:E2; simpl; try done.
  apply Nat.leb_le in E1. apply Nat.ltb_lt in E2. lia.
Qed.

Lemma raise_for_status_success resp :
  200 ≤ status_code resp < 300 -> raise_for_status resp = Ok tt.
Proof.
  intros [H1 H2]. unfold raise_for_status.
  apply Nat.leb_le in H1. apply Nat.ltb_lt in H2. by rewrite H1, H2.
Qed.

(** C6: [submit_answer] sends exactly one request and always returns; a
    connection error, a non-success status and an unparsable body each
    come back as a dict with [correct] false, the text of the exception
    as [reason], and nothing else. *)
Theorem submit_answer_normalises :
  (submit_answer post url email secret quiz_url answer).1 = [payload] ∧
  (∃ r, (submit_answer post url email secret quiz_url answer).2 = Ok r) ∧
  (∀ msg, post payload = Exn msg ->
     (submit_answer post url email secret quiz_url answer).2 =
       Ok (RespDict (OutcomeDict false (Some msg) None))) ∧
  (∀ resp, post payload = Ok resp -> ¬ (200 ≤ status_code resp < 300) ->
     (submit_answer post url email secret quiz_url answer).2 =
       Ok (RespDict (OutcomeDict false (Some (status_error resp)) None))) ∧
  (∀ resp msg, post payload = Ok resp -> 200 ≤ status_code resp < 300 ->
     json resp = Exn msg ->
     (submit_answer post url email secret quiz_url answer).2 =
       Ok (RespDict (OutcomeDict false (Some msg) None))).
Proof.
  unfold submit_answer, post_and_parse. simpl.
  split; [done|]. split; [|split; [|split]].
  - destruct (post payload) as [resp|msg]; simpl; [|by eexists].
    destruct (raise_for_status resp); simpl; [|by eexists].
    destruct (json resp); by eexists.
  - by intros msg ->.
  - intros resp -> H%raise_for_status_failure. simpl. by rewrite H.
  - intros resp msg -> H%raise_for_status_success Hj. simpl.
    rewrite H. simpl. by rewrite Hj.
Qed.
End SubmissionFacts.

(** ** Failures inside one attempt *)

Section FailureFacts.
Import Py Executor Agent Scenario.

Context (env : nat -> pass_env) (deadline : Z) (max_iterations : nat).
Context (email secret : string).

Local Abbreviation body := (loop_body env deadline max_iterations email secret).

(** The verdict on a submission is a [break], a [continue] or a move. *)
Lemma interpret_submission_decides current_url counts d err :
  interpret_submission current_url counts d ≠ Propagate err.
Proof. unfold interpret_submission. by repeat case_match. Qed.

(** So is what the body of the [try] decides when it returns. *)
Lemma attempt_body_decides e current_url counts err :
  attempt_body e deadline max_iterations email secret current_url counts
    ≠ Returns (Propagate err).
Proof.
  unfold attempt_body.
  destruct (extract_quiz_content e current_url) as [x|]; [|done].
  destruct (call_analyzer_llm e x) as [a|msg]; [|done].
  cbn [lift mbind outcome_bind].
  destruct (agent_iterations e deadline max_iterations 1 [])
    as [[answer history]|msg|exc]; cbn [mbind outcome_bind]; [|done..].
  destruct (submission_link a) as [link|]; [|done].
  destruct (negb (is_none answer)); [|done].
  unfold submit_answer. cbn [snd].
  destruct (post_and_parse _ _) as [[d|]|msg];
    cbn [lift as_dict mbind outcome_bind mret outcome_ret]; [|done|].
  - intros [= H]. by apply interpret_submission_decides in H.
  - intros [= H]. by apply interpret_submission_decides in H.
Qed.

(** A pass hands on an exception only when its attempt, started beyond
    the safety checks, let one through. *)
Lemma loop_body_propagates s err s' :
  body s = (Propagate err, s') ->
  attempt_body (attempt (env (S (total_attempts s)))) deadline max_iterations
    email secret (current_url s) (counted s) = Escapes err ∧
  s' = entered s.
Proof.
  unfold loop_body. fold (counted s).
  destruct (_ <? _)%nat; [done|]. destruct (_ <? _)%nat; [done|].
  destruct (_ <? _)%Z; [done|].
  pose proof (attempt_body_decides (attempt (env (S (total_attempts s))))
                (current_url s) (counted s)) as Hdec.
  destruct (attempt_body _ _ _ _ _ _ _) as [[| |next_url|err']|msg|err'];
    try done.
  - by destruct (Hdec err').
  - by intros [= -> <-].
Qed.

(** The loop is left by an exception only when some attempt let it
    through. *)
Lemma while_loop_escaped fuel : ∀ s final err,
  while_loop env deadline max_iterations email secret fuel s
    = Some (Escaped final err) ->
  ∃ s0,
    attempt_body (attempt (env (S (total_attempts s0)))) deadline
      max_iterations email secret (current_url s0) (counted s0) = Escapes err ∧
    final = entered s0.
Proof.
  induction fuel as [|fuel IH]; intros s final err; simpl; [done|].
  destruct (str_truthy _ && _); [|done].
  destruct (body s) as [[| |next_url|err'] s'] eqn:Hbody; try done.
  - apply IH.
  - apply IH.
  - intros [= -> ->]. exists s. by apply loop_body_propagates.
Qed.

(** C3, as the code has it: a page that cannot be extracted ends the
    session at once. An exception of class [Exception] raised anywhere in
    the attempt (the analysis failing, the reasoning collaborator failing,
    a reply of the server that is not an object) is caught: the pass ends
    as a retry of the same location, whose counter this pass has already
    raised. A pass hands on to the caller of the loop only an exception
    that the attempt let through, never one of that class, and the loop
    is left by an exception only when an attempt let it through. *)
Theorem attempt_failures_contained s :
  reaches_processing env deadline s ->
  let e := attempt (env (S (total_attempts s))) in
  let here := current_url s in
  let this_attempt := attempt_body e deadline max_iterations email secret here
                   (counted s) in
  (extract_quiz_content e here = None -> body s = (Break, entered s)) ∧
  (∀ x msg, extract_quiz_content e here = Some x ->
     call_analyzer_llm e x = Exn msg ->
     this_attempt = Raises msg ∧ body s = (Continue, entered s)) ∧
  (∀ x a msg, extract_quiz_content e here = Some x ->
     call_analyzer_llm e x = Ok a ->
     0 < max_iterations -> (it_now (iter e 1) < deadline)%Z ->
     call_agent_llm (iter e 1) [] = Exn msg ->
     this_attempt = Raises msg ∧ body s = (Continue, entered s)) ∧
  (∀ link answer, reaches_submission e deadline max_iterations here link answer ->
     post_and_parse (post e) (Request link email secret here answer)
       = Ok RespOther ->
     (∃ msg, this_attempt = Raises msg) ∧ body s = (Continue, entered s)) ∧
  (∀ msg, this_attempt = Raises msg -> body s = (Continue, entered s)) ∧
  (∀ err, (body s).1 = Propagate err <-> this_attempt = Escapes err) ∧
  (∀ fuel quiz_url final err,
     run_quiz_agent env deadline max_iterations email secret fuel quiz_url
       = Some (Escaped final err) ->
     ∃ s0, attempt_body (attempt (env (S (total_attempts s0)))) deadline
             max_iterations email secret (current_url s0) (counted s0)
           = Escapes err ∧ final = entered s0) ∧
  current_url (entered s) = here ∧
  attempts_of (url_attempt_counts (entered s)) here =
    S (attempts_of (url_attempt_counts s) here).
Proof.
  intros Hp e here this_attempt.
  assert (∀ fuel quiz_url final err,
            run_quiz_agent env deadline max_iterations email secret fuel quiz_url
              = Some (Escaped final err) ->
            ∃ s0, attempt_body (attempt (env (S (total_attempts s0)))) deadline
                    max_iterations email secret (current_url s0) (counted s0)
                  = Escapes err ∧ final = entered s0) as Hloop.
  { intros fuel quiz_url final err. apply while_loop_escaped. }
  rewrite (loop_body_processed _ _ _ _ _ _ Hp).
  fold e here this_attempt.
  assert (∀ msg, this_attempt = Raises msg ->
            match this_attempt with
            | Returns (Next next_url) => (Next next_url, moved_to next_url (entered s))
            | Returns flow => (flow, entered s)
            | Raises _ => (Continue, entered s)
            | Escapes err => (Propagate err, entered s)
            end = (Continue, entered s)) as Hcaught by (by intros msg ->).
  split; [|split; [|split; [|split; [|split; [|split; [|split; [|split]]]]]]].
  - intros H. subst this_attempt. unfold attempt_body. by rewrite H.
  - intros x msg Hx Ha.
    assert (this_attempt = Raises msg) as H; [|by split; [|apply (Hcaught msg)]].
    subst this_attempt. unfold attempt_body. by rewrite Hx, Ha.
  - intros x a msg Hx Ha Hmax Hnow%Z.leb_gt Hr.
    assert (this_attempt = Raises msg) as H; [|by split; [|apply (Hcaught msg)]].
    subst this_attempt. unfold attempt_body.
    rewrite Hx, Ha. cbn [lift mbind outcome_bind].
    destruct max_iterations as [|k]; [lia|]. cbn [agent_iterations].
    by rewrite Hnow, Hr.
  - intros link answer (x & a & h & Hx & Ha & Hlink & Hit & Hans) Hresp.
    assert (this_attempt = Raises "AttributeError: object has no attribute 'get'")
      as H; [|split; [by eexists|by apply (Hcaught _ H)]].
    subst this_attempt. unfold attempt_body. rewrite Hx, Ha.
    cbn [lift mbind outcome_bind]. rewrite Hit. cbn [mbind outcome_bind].
    rewrite Hlink, Hans. unfold submit_answer. cbn [snd negb].
    by rewrite Hresp.
  - apply Hcaught.
  - intros err.
    pose proof (attempt_body_decides e here (counted s)) as Hdec.
    fold this_attempt in Hdec.
    destruct this_attempt as [[| |next_url|err']|msg|err']; cbn [fst];
      try (split; done).
    + by destruct (Hdec err').
    + split; by intros [= ->].
  - apply Hloop.
  - done.
  - apply attempts_of_counted.
Qed.

(** C9: when the round-trip fails, the dict [submit_answer] returns has
    no next location, and the pass never moves the session: it retries
    the same location while its count is below the ceiling, and stops the
    session otherwise. *)
Theorem transport_failure_never_advances s link answer msg :
  reaches_processing env deadline s ->
  let e := attempt (env (S (total_attempts s))) in
  reaches_submission e deadline max_iterations (current_url s) link answer ->
  transport_fails (post e)
    (Request link email secret (current_url s) answer) msg ->
  let tried := S (attempts_of (url_attempt_counts s) (current_url s)) in
  (submit_answer (post e) link email secret (current_url s) answer).2 =
    Ok (RespDict (OutcomeDict false (Some msg) None)) ∧
  (tried < MAX_ATTEMPTS_PER_URL -> body s = (Continue, entered s)) ∧
  (¬ tried < MAX_ATTEMPTS_PER_URL -> body s = (Break, entered s)) ∧
  current_url (body s).2 = current_url s ∧
  (∀ n, (body s).1 ≠ Next n).
Proof.
  intros Hp e Hs Hf%submit_answer_fails tried.
  pose proof (loop_body_verdict _ _ _ _ _ s link answer _ Hp Hs Hf) as Hbody.
  pose proof (attempts_of_counted s) as Hcount. fold tried in Hcount.
  unfold interpret_submission in Hbody. simpl in Hbody. rewrite Hcount in Hbody.
  split; [done|].
  destruct (tried <? MAX_ATTEMPTS_PER_URL)%nat eqn:E; comparisons;
    rewrite Hbody; simpl; repeat split; try done; intros; lia.
Qed.
End FailureFacts.

(** ** The iteration engine *)

Section IterationFacts.
Import Py Executor Agent Scenario.

Context (e : attempt_env) (deadline : Z).

Local Abbreviation iterate := (agent_iterations e deadline).

(** What iteration [i] executes the code [c] with. *)
Local Abbreviation run_of i c := (execute_code (it_interp (iter e i)) c 60).

(** An execution result the engine takes for the answer. *)
Local Abbreviation is_answer x := (success x && negb (is_none (result x))).

(** A final answer ends the iterations at once; nothing is executed. *)
Lemma agent_iterations_final k i history r :
  (it_now (iter e i) < deadline)%Z ->
  call_agent_llm (iter e i) history = Ok r ->
  is_none (final_answer r) = false ->
  iterate (S k) i history = Returns (final_answer r, history).
Proof.
  intros Hnow%Z.leb_gt Hr Hfin. simpl. rewrite Hnow, Hr. simpl.
  by rewrite Hfin.
Qed.

(** So does an execution that succeeds with a value other than [None]. *)
Lemma agent_iterations_executed k i history r c x :
  (it_now (iter e i) < deadline)%Z ->
  call_agent_llm (iter e i) history = Ok r ->
  is_none (final_answer r) = true ->
  code r = Some c -> str_truthy c = true ->
  run_of i c = Returns x ->
  success x = true ->
  is_none (result x) = false ->
  iterate (S k) i history =
    Returns (result x, history ++ [IterationRecord i c x]).
Proof.
  intros Hnow%Z.leb_gt Hr Hfin Hc Ht Hx Hs Hn. simpl. rewrite Hnow, Hr. simpl.
  rewrite Hfin, Hc, Ht. simpl. rewrite Hx. simpl. by rewrite Hs, Hn.
Qed.

(** An execution that lets an exception through takes the engine with it:
    no record is appended and no answer is produced. *)
Lemma agent_iterations_escaped k i history r c err :
  (it_now (iter e i) < deadline)%Z ->
  call_agent_llm (iter e i) history = Ok r ->
  is_none (final_answer r) = true ->
  code r = Some c -> str_truthy c = true ->
  run_of i c = Escapes err ->
  iterate (S k) i history = Escapes err.
Proof.
  intros Hnow%Z.leb_gt Hr Hfin Hc Ht Hx. simpl. rewrite Hnow, Hr. simpl.
  rewrite Hfin, Hc, Ht. simpl. by rewrite Hx.
Qed.

(** With the deadline ahead, a collaborator that only sends code, and
    executions that all return without an answer, all [k] iterations
    run. *)
Lemma agent_iterations_exhausted k : ∀ start history,
  (∀ i, start ≤ i < start + k -> (it_now (iter e i) < deadline)%Z) ->
  (∀ i h, start ≤ i < start + k ->
     ∃ r c, call_agent_llm (iter e i) h = Ok r ∧
            is_none (final_answer r) = true ∧
            code r = Some c ∧ str_truthy c = true) ->
  (∀ i c, start ≤ i < start + k ->
     ∃ x, run_of i c = Returns x ∧ is_answer x = false) ->
  ∃ records,
    iterate k start history = Returns (PyNone, history ++ records) ∧
    length records = k ∧
    rec_iteration <$> records = seq start k ∧
    ∀ rec, rec ∈ records ->
      run_of (rec_iteration rec) (rec_code rec) = Returns (rec_result rec).
Proof.
  induction k as [|k IH]; intros start history Hnow Hagent Hexec.
  { exists []. rewrite app_nil_r. split; [done|]. split; [done|].
    split; [done|]. intros rec H. by apply elem_of_nil in H. }
  destruct (Hagent start history) as (r & c & Hr & Hfin & Hc & Ht); [lia|].
  destruct (Hexec start c) as (x & Hx & Hno); [lia|].
  specialize (Hnow start) as Hn. apply Z.leb_gt in Hn; [|lia].
  destruct (IH (S start) (history ++ [IterationRecord start c x]))
    as (records & Hrun & Hlen & Hseq & Hrec).
  { intros i Hi. apply Hnow. lia. }
  { intros i h Hi. apply Hagent. lia. }
  { intros i c' Hi. apply Hexec. lia. }
  exists (IterationRecord start c x :: records). split; [|split; [|split]].
  - simpl. rewrite Hn, Hr. simpl. rewrite Hfin, Hc, Ht. simpl.
    rewrite Hx. simpl. rewrite Hno. rewrite Hrun. by rewrite <- app_assoc.
  - simpl. by rewrite Hlen.
  - rewrite fmap_cons, Hseq. reflexivity.
  - intros rec [->|H]%elem_of_cons; [done|by apply Hrec].
Qed.

(** C7, as the code has it: while the deadline is ahead of every
    iteration, a collaborator that sends non-empty code and never a final
    answer, with every execution returning a result that is not a success
    with a value, makes the engine run exactly [max_iterations] executions,
    one record each, and end without an answer; a final answer, or an
    execution that succeeds with a value, ends the iterations with that
    answer. *)
Theorem iteration_cap max_iterations :
  ((∀ i, 1 ≤ i ≤ max_iterations -> (it_now (iter e i) < deadline)%Z) ->
   (∀ i h, 1 ≤ i ≤ max_iterations ->
      ∃ r c, call_agent_llm (iter e i) h = Ok r ∧
             is_none (final_answer r) = true ∧
             code r = Some c ∧ str_truthy c = true) ->
   (∀ i c, 1 ≤ i ≤ max_iterations ->
      ∃ x, run_of i c = Returns x ∧ is_answer x = false) ->
   ∃ records,
     iterate max_iterations 1 [] = Returns (PyNone, records) ∧
     length records = max_iterations ∧
     rec_iteration <$> records = seq 1 max_iterations ∧
     ∀ rec, rec ∈ records ->
       run_of (rec_iteration rec) (rec_code rec) = Returns (rec_result rec)) ∧
  (∀ k i history r,
     (it_now (iter e i) < deadline)%Z ->
     call_agent_llm (iter e i) history = Ok r ->
     is_none (final_answer r) = false ->
     iterate (S k) i history = Returns (final_answer r, history)) ∧
  (∀ k i history r c x,
     (it_now (iter e i) < deadline)%Z ->
     call_agent_llm (iter e i) history = Ok r ->
     is_none (final_answer r) = true ->
     code r = Some c -> str_truthy c = true ->
     run_of i c = Returns x ->
     success x = true ->
     is_none (result x) = false ->
     iterate (S k) i history =
       Returns (result x, history ++ [IterationRecord i c x])).
Proof.
  split; [|split].
  - intros Hnow Hagent Hexec.
    destruct (agent_iterations_exhausted max_iterations 1 [])
      as (records & Hrun & Hlen & Hseq & Hrec).
    { intros i Hi. apply Hnow. lia. }
    { intros i h Hi. apply Hagent. lia. }
    { intros i c Hi. apply Hexec. lia. }
    by exists records.
  - apply agent_iterations_final.
  - apply agent_iterations_executed.
Qed.
End IterationFacts.

(** ** The order of the counters and the guards *)

Section OrderFacts.
Import Py Executor Agent Scenario.

Context (env : nat -> pass_env) (deadline : Z) (max_iterations : nat).
Context (email secret : string).

Local Abbreviation body := (loop_body env deadline max_iterations email secret).

(** C10, as the code has it: every pass raises the global counter first.
    A pass cut off by the global ceiling leaves the counter of the
    location alone. Every other pass raises the counter of the location
    before the deadline guard and before the attempt, so a pass cut off by
    the per-location ceiling or by the ten-second guard has used a slot of
    both counters; a cut-off pass adds nothing to the visited sequence,
    which only a pass that reaches processing extends. *)
Theorem counters_before_guards s :
  let here := current_url s in
  let total := S (total_attempts s) in
  total_attempts (body s).2 = total ∧
  (MAX_TOTAL_ATTEMPTS < total ->
     body s = (Break, Session here total (url_attempt_counts s) (visited_urls s))) ∧
  (total ≤ MAX_TOTAL_ATTEMPTS -> url_attempt_counts (body s).2 = counted s) ∧
  (total ≤ MAX_TOTAL_ATTEMPTS ->
     MAX_ATTEMPTS_PER_URL < S (attempts_of (url_attempt_counts s) here) ∨
     (deadline - now_guard (env total) < seconds 10)%Z ->
     body s = (Break, Session here total (counted s) (visited_urls s))) ∧
  (reaches_processing env deadline s ->
     visited_urls (body s).2 = visited_urls s ++ [here]).
Proof.
  intros here total. subst here total.
  split; [apply loop_body_total_attempts|].
  split; [|split; [|split]].
  - intros H. apply Nat.ltb_lt in H. unfold loop_body. by rewrite H.
  - intros H. pass_cases; try done. lia.
  - intros H Hcut. apply Nat.ltb_ge in H. unfold loop_body. rewrite H.
    rewrite attempts_of_insert. case_decide; [|done].
    destruct (MAX_ATTEMPTS_PER_URL <? _)%nat eqn:E1; [done|].
    destruct (_ <? seconds 10)%Z eqn:E2; [done|].
    comparisons. destruct Hcut; lia.
  - intros Hp. rewrite (loop_body_processed _ _ _ _ _ _ Hp).
    by repeat case_match.
Qed.
End OrderFacts.

(** ** The service boundary *)

Section HandlerFacts.
Import Py Executor Agent Scenario.

(** For an authenticated caller the reply is assembled after
    [run_quiz_agent] has returned the final session; when an exception
    leaves [run_quiz_agent], the handler replies nothing. *)
Lemma handle_quiz_awaits expected_secret expected_email env start request extra :
  Some (Main.secret request) = expected_secret ->
  Some (Main.email request) = expected_email ->
  ∃ ending,
    run_quiz_agent env (start + minutes 3) 2 (Main.email request)
      (Main.secret request) (S MAX_TOTAL_ATTEMPTS + extra) (Main.url request)
      = Some ending ∧
    Main.handle_quiz expected_secret expected_email env start
      (S MAX_TOTAL_ATTEMPTS + extra) request =
      Some (Main.AgentCalled (Main.url request) (start + minutes 3) ::
            match ending with
            | Returned final =>
                [Main.AgentReturned final;
                 Main.Replied
                   (Main.QuizResponse "success" "Quiz processing initiated")]
            | Escaped final err => [Main.AgentEscaped final err]
            end).
Proof.
  intros Hs He.
  destruct (while_loop_terminates env (start + minutes 3) 2
              (Main.email request) (Main.secret request)
              (S MAX_TOTAL_ATTEMPTS) (initial (Main.url request)))
    as (ending & Hrun & _).
  { simpl. lia. }
  { simpl. lia. }
  { apply session_inv_initial. }
  apply (while_loop_more_fuel _ _ _ _ _ _ extra) in Hrun.
  exists ending. split; [done|].
  unfold Main.handle_quiz. rewrite !decide_True by done.
  unfold run_quiz_agent. rewrite Hrun. by destruct ending.
Qed.

(** When the generated code of the first attempt calls [sys.exit(1)], the
    handler is left by the exception and assembles no reply. *)
Example handle_quiz_exiting_code :
  Main.handle_quiz (Some s3cret) (Some me) (still attempt_exiting_code) 0 31
    {| Main.email := me; Main.secret := s3cret; Main.url := q1 |}
  = Some [Main.AgentCalled q1 three_minutes;
          Main.AgentEscaped (Session q1 1 {[ q1 := 1 ]} [q1]) "SystemExit: 1"].
Proof. vm_compute. reflexivity. Qed.

(** C8: an authenticated request against the server that always answers
    "incorrect". [handle_quiz] replies only after [run_quiz_agent] has
    returned: the two attempts of the session are over when
    the acknowledgment "Quiz processing initiated" is produced. *)
Theorem handle_quiz_replies_after_session :
  Main.handle_quiz (Some s3cret) (Some me)
    (still (attempt_answering server_wrong)) 0 31
    {| Main.email := me; Main.secret := s3cret; Main.url := q1 |}
  = Some [Main.AgentCalled q1 three_minutes;
          Main.AgentReturned (Session q1 2 {[ q1 := 2 ]} [q1; q1]);
          Main.Replied (Main.QuizResponse "success" "Quiz processing initiated")].
Proof. vm_compute. reflexivity. Qed.
End HandlerFacts.

(** ** The statements at work on scripted sessions *)

Section Scripted.
Import Py Executor Agent Scenario.

(** The first pass of a session, three minutes before its deadline. *)
Lemma first_pass_reaches_processing e quiz_url :
  reaches_processing (still e) three_minutes (initial quiz_url).
Proof.
  unfold reaches_processing, attempts_of. simpl. rewrite lookup_empty.
  repeat split; vm_compute; (lia || done).
Defined.

(** The scripted attempt submits 42. *)
Lemma answering_reaches_submission post :
  reaches_submission (attempt_answering post) three_minutes 2 q1 submit_url
    (PyInt 42).
Proof. by exists some_extraction, some_analysis, []. Defined.

(** C3: the page of the first attempt cannot be extracted. The pass is a
    [break], not a retry, although the location has been tried once only,
    and the session is over after that one attempt. *)
Lemma extraction_failure_stops_session :
  let env := still attempt_no_page in
  let pass := loop_body env three_minutes 2 me s3cret (initial q1) in
  reaches_processing env three_minutes (initial q1) ∧
  extract_quiz_content (attempt (env 1)) q1 = None ∧
  pass.1 = Break ∧
  pass.1 ≠ Continue ∧
  attempts_of (url_attempt_counts pass.2) q1 = 1 ∧
  run_quiz_agent env three_minutes 2 me s3cret 31 q1 =
    Some (Returned (Session q1 1 {[ q1 := 1 ]} [q1])) ∧
  run_quiz_agent (still attempt_exiting_code) three_minutes 2 me s3cret 31 q1 =
    Some (Escaped (Session q1 1 {[ q1 := 1 ]} [q1]) "SystemExit: 1").
Proof.
  split; [apply first_pass_reaches_processing|].
  repeat split; try (vm_compute; reflexivity). vm_compute. discriminate.
Qed.

(** The reasoning collaborator fails: the pass is a retry as well. *)
Example reasoning_failure_is_retried :
  loop_body (still attempt_no_reasoning) three_minutes 2 me s3cret (initial q1)
    = (Continue, entered (initial q1)).
Proof. reflexivity. Qed.

(** The analysis of the first attempt fails: the pass is a retry. *)
Lemma attempt_failures_contained_witness :
  loop_body (still attempt_no_analysis) three_minutes 2 me s3cret (initial q1)
    = (Continue, entered (initial q1)).
Proof.
  refine (proj2 (proj1 (proj2 (attempt_failures_contained
            (still attempt_no_analysis) three_minutes 2 me s3cret (initial q1)
            (first_pass_reaches_processing _ _)))
            some_extraction "RuntimeError: LLM returned invalid JSON" _ _));
    reflexivity.
Defined.

(** A wrong answer with a new location: the session moves on. *)
Lemma incorrect_answer_policy_witness :
  loop_body (still (attempt_answering server_onward)) three_minutes 2 me
    s3cret (initial q1)
    = (Next (q1 +:+ "+"), moved_to (q1 +:+ "+") (entered (initial q1))).
Proof.
  refine (proj1 (proj1 (incorrect_answer_policy
            (still (attempt_answering server_onward)) three_minutes 2 me
            s3cret (initial q1) submit_url (PyInt 42)
            (OutcomeDict false (Some "wrong") (Some (q1 +:+ "+")))
            (first_pass_reaches_processing _ _)
            (answering_reaches_submission _) _ _) (q1 +:+ "+") _ _)).
  - reflexivity.
  - reflexivity.
  - split; reflexivity.
  - vm_compute. discriminate.
Defined.

(** A right answer with a new location: the session moves on. *)
Lemma correct_answer_policy_witness :
  loop_body (still (attempt_answering (reply_with (OutcomeDict true None (Some q2)))))
    three_minutes 2 me s3cret (initial q1)
    = (Next q2, moved_to q2 (entered (initial q1))).
Proof.
  refine (proj1 (proj2 (proj2 (correct_answer_policy
            (still (attempt_answering (reply_with (OutcomeDict true None (Some q2)))))
            three_minutes 2 me s3cret (initial q1) submit_url (PyInt 42)
            (OutcomeDict true None (Some q2))
            (first_pass_reaches_processing _ _)
            (answering_reaches_submission _) _ _)) q2 _ _)).
  - reflexivity.
  - reflexivity.
  - split; reflexivity.
  - vm_compute. discriminate.
Defined.

(** The server cannot be reached: an ordinary incorrect outcome. *)
Lemma submit_answer_normalises_witness :
  (submit_answer server_down submit_url me s3cret q1 (PyInt 42)).2 =
    Ok (RespDict (OutcomeDict false
          (Some "ConnectError: all connection attempts failed") None)).
Proof.
  exact (proj1 (proj2 (proj2 (submit_answer_normalises
           server_down submit_url me s3cret q1 (PyInt 42))))
           "ConnectError: all connection attempts failed" eq_refl).
Defined.

(** The server cannot be reached on the first attempt: a retry. *)
Lemma transport_failure_never_advances_witness :
  loop_body (still (attempt_answering server_down)) three_minutes 2 me s3cret
    (initial q1) = (Continue, entered (initial q1)).
Proof.
  refine (proj1 (proj2 (transport_failure_never_advances
            (still (attempt_answering server_down)) three_minutes 2 me s3cret
            (initial q1) submit_url (PyInt 42)
            "ConnectError: all connection attempts failed"
            (first_pass_reaches_processing _ _)
            (answering_reaches_submission _) _)) _).
  - reflexivity.
  - vm_compute. lia.
Defined.

(** C7: the collaborator sends code on every iteration and every
    execution fails, but the clock passes the deadline before the second
    iteration: one execution, not two. *)
Lemma deadline_cuts_iterations :
  (∀ i h, call_agent_llm (iter attempt_late i) h =
            Ok (AgentResponse (Some "answer = undefined_name") PyNone "try this")) ∧
  (∀ i c, ∃ x, execute_code (it_interp (iter attempt_late i)) c 60 = Returns x ∧
               success x = false) ∧
  (∃ records,
     agent_iterations attempt_late three_minutes 2 1 [] = Returns (PyNone, records) ∧
     length records = 1 ∧ length records ≠ 2) ∧
  (∀ i h, call_agent_llm (iter attempt_exiting_code i) h =
            Ok (AgentResponse (Some "import sys; sys.exit(1)") PyNone "try this")) ∧
  (∀ i c x, execute_code (it_interp (iter attempt_exiting_code i)) c 60
            ≠ Returns x) ∧
  agent_iterations attempt_exiting_code three_minutes 2 1 []
    = Escapes "SystemExit: 1".
Proof.
  split; [done|]. split; [by eexists|]. split.
  { eexists. split; [vm_compute; reflexivity|]. split; [done|]. simpl. lia. }
  split; [done|]. split; [done|]. reflexivity.
Qed.

(** The same collaborator with the deadline ahead: two executions. *)
Lemma iteration_cap_witness :
  ∃ records,
    agent_iterations attempt_failing_code three_minutes 2 1 [] =
      Returns (PyNone, records) ∧
    length records = 2 ∧
    rec_iteration <$> records = [1; 2] ∧
    ∀ rec, rec ∈ records ->
      execute_code (it_interp (iter attempt_failing_code (rec_iteration rec)))
        (rec_code rec) 60 = Returns (rec_result rec).
Proof.
  apply (proj1 (iteration_cap attempt_failing_code three_minutes 2)).
  - intros i _. reflexivity.
  - intros i h _. eexists _, _. repeat split; reflexivity.
  - intros i c _. eexists. split; reflexivity.
Defined.

(** C10: the server sends the session to a fresh location after every
    attempt. After 30 passes the session [s] stands on a location it has
    never tried. The 31st pass raises the global counter to 31 and is cut
    off by the global ceiling: the counter of its location is not raised,
    and 30 attempts have been processed. *)
Lemma global_ceiling_spares_location_counter :
  let env := still (attempt_answering server_onward) in
  let pass := loop_body env three_minutes 2 me s3cret in
  let s := Nat.iter 30 (fun s => (pass s).2) (initial q1) in
  total_attempts s = 30 ∧
  (pass s).1 = Break ∧
  total_attempts (pass s).2 = 31 ∧
  length (visited_urls (pass s).2) = 30 ∧
  attempts_of (url_attempt_counts s) (current_url s) = 0 ∧
  attempts_of (url_attempt_counts (pass s).2) (current_url s) = 0 ∧
  run_quiz_agent env three_minutes 2 me s3cret 31 q1 = Some (Returned (pass s).2).
Proof. repeat split; vm_compute; reflexivity. Qed.

(** A first pass five seconds before the deadline: cut off by the guard,
    with the counter of its location already raised. *)
Lemma counters_before_guards_witness :
  loop_body (last_seconds (attempt_answering server_wrong)) three_minutes 2 me
    s3cret (initial q1)
    = (Break, Session q1 1 (counted (initial q1)) []).
Proof.
  refine (proj1 (proj2 (proj2 (proj2 (counters_before_guards
            (last_seconds (attempt_answering server_wrong)) three_minutes 2 me
            s3cret (initial q1))))) _ _).
  - vm_compute. lia.
  - right. reflexivity.
Defined.
End Scripted.

(** * Further properties *)

(** ** The first JSON object of a text *)

Section JsonTextFacts.
Import AgentLLM.

Local Abbreviation lbrace := ("{"%char).
Local Abbreviation rbrace := ("}"%char).

Local Arguments opens : simpl never.
Local Arguments closes : simpl never.

Lemma opens_cons c l :
  opens (c :: l) = (if decide (c = lbrace) then 1 else 0) + opens l.
Proof. unfold opens. rewrite filter_cons. by case_decide. Qed.

Lemma closes_cons c l :
  closes (c :: l) = (if decide (c = rbrace) then 1 else 0) + closes l.
Proof. unfold closes. rewrite filter_cons. by case_decide. Qed.

Lemma count_lbrace l : opens (lbrace :: l) = S (opens l) ∧ closes (lbrace :: l) = closes l.
Proof. by rewrite opens_cons, closes_cons. Qed.

Lemma count_rbrace l : opens (rbrace :: l) = opens l ∧ closes (rbrace :: l) = S (closes l).
Proof. by rewrite opens_cons, closes_cons. Qed.

Lemma count_other c l :
  c ≠ lbrace -> c ≠ rbrace ->
  opens (c :: l) = opens l ∧ closes (c :: l) = closes l.
Proof. intros. by rewrite opens_cons, closes_cons, !decide_False. Qed.

(** An empty text has no braces. *)
Ltac no_braces :=
  change (opens []) with 0 in *; change (closes []) with 0 in *.

Lemma opens_app l1 l2 : opens (l1 ++ l2) = opens l1 + opens l2.
Proof. unfold opens. by rewrite filter_app, length_app. Qed.

Lemma closes_app l1 l2 : closes (l1 ++ l2) = closes l1 + closes l2.
Proof. unfold closes. by rewrite filter_app, length_app. Qed.

Lemma find_none ch text : find ch text = None <-> ch ∉ text.
Proof.
  induction text as [|c text IH]; simpl.
  - split; [intros _; apply not_elem_of_nil|done].
  - case_decide; subst.
    + split; [done|]. intros H. destruct H. left.
    + rewrite fmap_None, IH, not_elem_of_cons.
      split; [intros ?; split; [congruence|done]|by intros [_ ?]].
Qed.

Lemma find_split ch text n :
  find ch text = Some n ->
  ∃ pre post, text = pre ++ (ch :: post) ∧ (ch ∉ pre) ∧ length pre = n.
Proof.
  revert n. induction text as [|c text IH]; intros n; simpl; [done|].
  case_decide; subst.
  - intros [= <-]. exists [], text. split; [done|]. split; [apply not_elem_of_nil|done].
  - intros (m & Hm & ->)%fmap_Some. destruct (IH m Hm) as (pre & post & -> & Hpre & Hlen).
    exists (c :: pre), post. split; [done|]. split; [|by simpl; f_equal].
    rewrite not_elem_of_cons. split; [congruence|done].
Qed.

Lemma find_app ch pre post :
  ch ∉ pre -> find ch (pre ++ ch :: post) = Some (length pre).
Proof.
  induction pre as [|c pre IH]; simpl; intros H.
  - by rewrite decide_True.
  - apply not_elem_of_cons in H as [H1 H2]. rewrite decide_False by done.
    by rewrite IH.
Qed.

(** The index the loop starts from only shifts its result. *)
Lemma scan_shift rest : ∀ stack i,
  scan stack i rest = (fun k => i + k) <$> scan stack 0 rest.
Proof.
  induction rest as [|ch rest IH]; intros stack i; simpl; [done|].
  assert (∀ st, scan st (S i) rest = (fun k => i + k) <$> scan st 1 rest) as Hs.
  { intros st. rewrite (IH st (S i)), (IH st 1), <- option_fmap_compose.
    apply option_fmap_ext. intros k. simpl. lia. }
  repeat case_match; simplify_eq/=; rewrite ?Hs; try done.
  by rewrite Nat.add_0_r.
Qed.

(** With braces on the stack, the loop returns at the end of the shortest
    prefix that closes them all. *)
Lemma scan_sound rest : ∀ stack k,
  stack ≠ [] -> scan stack 0 rest = Some k ->
  ∃ p post,
    rest = p ++ post ∧ length p = S k ∧
    closes p = opens p + length stack ∧
    ∀ n, n < length p -> closes (take n p) < opens (take n p) + length stack.
Proof.
  induction rest as [|ch rest IH]; intros stack k Hst; [done|].
  assert (0 < length stack) as Hpos by (destruct stack; [done|simpl; lia]).
  cbn [scan]. rewrite !(scan_shift rest _ 1).
  destruct (decide (ch = lbrace)) as [->|Hl].
  { intros (k' & Hk & ->)%fmap_Some.
    destruct (IH (lbrace :: stack) k') as (p & post & -> & Hlen & Hbal & Hpre);
      [done..|].
    cbn [length] in *.
    exists (lbrace :: p), post. split; [done|]. split; [by cbn [length]; f_equal|].
    destruct (count_lbrace p) as [-> ->]. split; [lia|].
    intros [|n] Hn; [rewrite take_0; no_braces; lia|].
    rewrite firstn_cons. destruct (count_lbrace (take n p)) as [-> ->].
    cbn [length] in Hn. specialize (Hpre n). lia. }
  destruct (decide (ch = rbrace)) as [->|Hr].
  { destruct stack as [|s [|s' stack']]; [done|..];
      rewrite ?(scan_shift rest _ 1).
    - intros [= <-]. exists [rbrace], rest. split; [done|]. split; [done|].
      split; [done|]. intros [|n] Hn; [|cbn [length] in Hn; lia].
      rewrite take_0. no_braces. cbn [length]. lia.
    - intros (k' & Hk & ->)%fmap_Some.
      destruct (IH (s' :: stack') k') as (p & post & -> & Hlen & Hbal & Hpre);
        [done..|].
      cbn [length] in *.
      exists (rbrace :: p), post. split; [done|]. split; [by cbn [length]; f_equal|].
      destruct (count_rbrace p) as [-> ->]. split; [lia|].
      intros [|n] Hn; [rewrite take_0; no_braces; lia|].
      rewrite firstn_cons. destruct (count_rbrace (take n p)) as [-> ->].
      cbn [length] in Hn. specialize (Hpre n). lia. }
  intros (k' & Hk & ->)%fmap_Some.
  destruct (IH stack k') as (p & post & -> & Hlen & Hbal & Hpre); [done..|].
  exists (ch :: p), post. split; [done|]. split; [by cbn [length]; f_equal|].
  destruct (count_other ch p Hl Hr) as [-> ->]. split; [lia|].
  intros [|n] Hn; [rewrite take_0; no_braces; lia|].
  rewrite firstn_cons. destruct (count_other ch (take n p) Hl Hr) as [-> ->].
  cbn [length] in Hn. specialize (Hpre n). lia.
Qed.

(** Conversely, the loop returns at the end of such a prefix, whatever
    follows it. *)
Lemma scan_complete p : ∀ stack post,
  stack ≠ [] ->
  closes p = opens p + length stack ->
  (∀ n, n < length p -> closes (take n p) < opens (take n p) + length stack) ->
  scan stack 0 (p ++ post) = Some (length p - 1).
Proof.
  induction p as [|ch p IH]; intros stack post Hst Hbal Hpre.
  { destruct stack; [done|]. no_braces. cbn [length] in Hbal. lia. }
  assert (0 < length stack) as Hpos by (destruct stack; [done|simpl; lia]).
  assert (p = [] ∨ 0 < length p) as Hp by (destruct p; [by left|right; simpl; lia]).
  assert (∀ n, n < length p ->
            closes (ch :: take n p) < opens (ch :: take n p) + length stack)
    as Hpre'.
  { intros n Hn. specialize (Hpre (S n)). rewrite firstn_cons in Hpre.
    apply Hpre. cbn [length]. lia. }
  cbn [app scan length]. rewrite !(scan_shift (p ++ post) _ 1).
  replace (S (length p) - 1) with (length p) by lia.
  destruct (decide (ch = lbrace)) as [->|Hl].
  { destruct (count_lbrace p) as [Ho Hc]. rewrite Ho, Hc in Hbal.
    rewrite (IH (lbrace :: stack) post); cbn [length]; [|done|lia|].
    - cbn [fmap option_fmap option_map]. f_equal. destruct Hp as [->|?]; [|lia].
      no_braces; lia.
    - intros n Hn. specialize (Hpre' n Hn).
      destruct (count_lbrace (take n p)) as [Ho' Hc']. rewrite Ho', Hc' in Hpre'. lia. }
  destruct (decide (ch = rbrace)) as [->|Hr].
  { destruct (count_rbrace p) as [Ho Hc]. rewrite Ho, Hc in Hbal.
    assert (∀ n, n < length p ->
              S (closes (take n p)) < opens (take n p) + length stack) as Hpre''.
    { intros n Hn. specialize (Hpre' n Hn).
      destruct (count_rbrace (take n p)) as [Ho' Hc']. by rewrite Ho', Hc' in Hpre'. }
    destruct stack as [|s [|s' stack']]; [done|..]; cbn [length] in *;
      rewrite ?(scan_shift (p ++ post) _ 1).
    - destruct Hp as [->|Hlen]; [done|].
      specialize (Hpre'' 0 Hlen). rewrite take_0 in Hpre''. no_braces; lia.
    - rewrite (IH (s' :: stack') post); cbn [length]; [|done|lia|].
      + cbn [fmap option_fmap option_map]. f_equal. destruct Hp as [->|?]; [|lia].
        no_braces; lia.
      + intros n Hn. specialize (Hpre'' n Hn). lia. }
  destruct (count_other ch p Hl Hr) as [Ho Hc]. rewrite Ho, Hc in Hbal.
  rewrite (IH stack post); [|done|lia|].
  - cbn [fmap option_fmap option_map]. f_equal. destruct Hp as [->|?]; [|lia].
    no_braces; lia.
  - intros n Hn. specialize (Hpre' n Hn).
    destruct (count_other ch (take n p) Hl Hr) as [Ho' Hc']. rewrite Ho', Hc' in Hpre'. lia.
Qed.

(** The loop returns as soon as some prefix closes the stack. *)
Lemma scan_returns p : ∀ stack post,
  stack ≠ [] -> opens p + length stack ≤ closes p ->
  is_Some (scan stack 0 (p ++ post)).
Proof.
  induction p as [|ch p IH]; intros stack post Hst Hbal.
  { destruct stack; [done|]. no_braces. cbn [length] in Hbal. lia. }
  cbn [app scan]. rewrite !(scan_shift (p ++ post) _ 1).
  destruct (decide (ch = lbrace)) as [->|Hl].
  { destruct (count_lbrace p) as [Ho Hc]. rewrite Ho, Hc in Hbal.
    apply fmap_is_Some, IH; cbn [length]; [done|lia]. }
  destruct (decide (ch = rbrace)) as [->|Hr].
  { destruct (count_rbrace p) as [Ho Hc]. rewrite Ho, Hc in Hbal.
    destruct stack as [|s [|s' stack']]; [done|done|]. cbn [length] in *.
    rewrite ?(scan_shift (p ++ post) _ 1).
    apply fmap_is_Some, IH; cbn [length]; [done|lia]. }
  destruct (count_other ch p Hl Hr) as [Ho Hc]. rewrite Ho, Hc in Hbal.
  apply fmap_is_Some, IH; [done|lia].
Qed.

(** A prefix that closes the stack for the first time ends in a closing
    brace. *)
Lemma closing_prefix_last p h :
  closes p = opens p + S h ->
  (∀ n, n < length p -> closes (take n p) < opens (take n p) + S h) ->
  last p = Some rbrace.
Proof.
  destruct p as [|c q _] using rev_ind; intros Hbal Hpre.
  { no_braces. lia. }
  rewrite last_snoc. f_equal.
  specialize (Hpre (length q)). rewrite take_app_length in Hpre.
  rewrite length_app in Hpre. cbn [length] in Hpre.
  rewrite opens_app, closes_app, opens_cons, closes_cons in Hbal.
  no_braces. destruct (decide (c = rbrace)); [done|]. lia.
Qed.

(** What [_extract_json] computes on a text whose first opening brace
    follows [pre]. *)
Lemma extract_json_unfold pre rest :
  lbrace ∉ pre ->
  _extract_json (pre ++ lbrace :: rest) =
    match scan [lbrace] 0 rest with
    | Some k => Some (lbrace :: take (S k) rest)
    | None => None
    end.
Proof.
  intros Hpre. unfold _extract_json. rewrite (find_app _ _ _ Hpre).
  rewrite drop_app_length. cbn [scan]. rewrite decide_True by done.
  rewrite scan_shift. destruct (scan [lbrace] 0 rest) as [k|] eqn:Hk; [|done].
  cbn [fmap option_fmap option_map]. f_equal.
  replace (S (S (length pre) + k)) with (length pre + S (S k)) by lia.
  rewrite take_app_add, drop_app_length. by rewrite firstn_cons.
Qed.

(** What is returned is the first opening brace of the text followed by
    the shortest run of characters that closes it. *)
Lemma first_object_parts text j :
  _extract_json text = Some j ->
  ∃ pre p post,
    text = pre ++ lbrace :: p ++ post ∧ (lbrace ∉ pre) ∧ j = lbrace :: p ∧
    closes p = opens p + 1 ∧
    ∀ n, n < length p -> closes (take n p) < opens (take n p) + 1.
Proof.
  intros H.
  destruct (find lbrace text) as [start|] eqn:Hfind;
    [|by unfold _extract_json in H; rewrite Hfind in H].
  destruct (find_split _ _ _ Hfind) as (pre & rest & -> & Hpre & _).
  rewrite (extract_json_unfold _ _ Hpre) in H.
  destruct (scan [lbrace] 0 rest) as [k|] eqn:Hk; [|done].
  injection H as <-.
  destruct (scan_sound rest [lbrace] k) as (p & post & -> & Hlen & Hbal & Hmin);
    [done..|].
  rewrite take_app_length' by done. by exists pre, p, post.
Qed.

(** Conversely, such a run after the first opening brace is returned with
    its brace. *)
Lemma first_object_found pre p post :
  lbrace ∉ pre ->
  closes p = opens p + 1 ->
  (∀ n, n < length p -> closes (take n p) < opens (take n p) + 1) ->
  _extract_json (pre ++ lbrace :: p ++ post) = Some (lbrace :: p).
Proof.
  intros Hpre Hbal Hmin. rewrite (extract_json_unfold _ _ Hpre).
  rewrite (scan_complete p [lbrace] post); [|done..].
  f_equal. f_equal. destruct p as [|c p]; [no_braces; lia|].
  cbn [length]. replace (S (S (length p) - 1)) with (length (c :: p)) by (cbn [length]; lia).
  by rewrite take_app_length.
Qed.

(** X1: what [_extract_json] returns is a piece of the text that starts at
    its first opening brace, ends with a closing brace, holds as many
    closing as opening braces, and is the shortest such piece: every proper
    prefix of it has more opening than closing braces. *)
Theorem extract_json_first_object text j :
  _extract_json text = Some j ->
  ∃ pre post,
    text = pre ++ j ++ post ∧ (lbrace ∉ pre) ∧
    head j = Some lbrace ∧ last j = Some rbrace ∧
    opens j = closes j ∧
    ∀ n, 0 < n < length j -> closes (take n j) < opens (take n j).
Proof.
  intros (pre & p & post & -> & Hpre & -> & Hbal & Hmin)%first_object_parts.
  exists pre, post. split; [done|]. split; [done|]. split; [done|].
  destruct (count_lbrace p) as [Ho Hc]. split; [|split].
  - rewrite last_cons. by rewrite (closing_prefix_last p 0 Hbal Hmin).
  - lia.
  - intros [|n] [Hn1 Hn2]; [lia|]. rewrite firstn_cons.
    destruct (count_lbrace (take n p)) as [-> ->].
    cbn [length] in Hn2. specialize (Hmin n). lia.
Qed.

(** X2: a text in which the first opening brace starts such a piece yields
    exactly that piece, whatever stands before and after it. *)
Theorem extract_json_finds_object pre j post :
  lbrace ∉ pre ->
  head j = Some lbrace ->
  opens j = closes j ->
  (∀ n, 0 < n < length j -> closes (take n j) < opens (take n j)) ->
  _extract_json (pre ++ j ++ post) = Some j.
Proof.
  intros Hpre Hhead Hbal Hmin. destruct j as [|c p]; [done|].
  injection Hhead as ->. cbn [app].
  destruct (count_lbrace p) as [Ho Hc]. rewrite Ho, Hc in Hbal.
  apply first_object_found; [done|lia|].
  intros n Hn. specialize (Hmin (S n)). rewrite firstn_cons in Hmin.
  destruct (count_lbrace (take n p)) as [Ho' Hc']. rewrite Ho', Hc' in Hmin.
  cbn [length] in Hmin. lia.
Qed.

(** X3: extracting from an extracted object gives the object back. *)
Theorem extract_json_idempotent text j :
  _extract_json text = Some j -> _extract_json j = Some j.
Proof.
  intros (pre & p & post & _ & _ & -> & Hbal & Hmin)%first_object_parts.
  pose proof (first_object_found [] p [] (not_elem_of_nil _) Hbal Hmin) as H.
  by rewrite app_nil_l, app_nil_r in H.
Qed.

(** X4: [_extract_json] returns nothing exactly when no piece of the text
    that starts at its first opening brace closes all the braces it opens:
    a text without an opening brace, or one whose braces stay open. *)
Theorem extract_json_none text :
  _extract_json text = None <->
  ∀ pre j post,
    text = pre ++ j ++ post -> lbrace ∉ pre -> head j = Some lbrace ->
    closes j < opens j.
Proof.
  split.
  - intros Hnone pre [|c p] post -> Hpre Hhead; [done|]. injection Hhead as ->.
    cbn [app] in Hnone. rewrite (extract_json_unfold _ _ Hpre) in Hnone.
    destruct (count_lbrace p) as [-> ->].
    destruct (decide (closes p < S (opens p))) as [|Hge]; [done|].
    destruct (scan_returns p [lbrace] post) as [k Hk]; [done|cbn [length]; lia|].
    by rewrite Hk in Hnone.
  - intros Hall. destruct (_extract_json text) as [j|] eqn:Hj; [|done].
    destruct (first_object_parts _ _ Hj)
      as (pre & p & post & -> & Hpre & -> & Hbal & _).
    specialize (Hall pre (lbrace :: p) post eq_refl Hpre eq_refl).
    destruct (count_lbrace p) as [Ho Hc]. rewrite Ho, Hc in Hall. lia.
Qed.

(** A text without any opening brace, or without any closing brace, holds
    no object. *)
Lemma extract_json_no_braces text :
  lbrace ∉ text ∨ rbrace ∉ text -> _extract_json text = None.
Proof.
  intros [H|H].
  - apply find_none in H. unfold _extract_json. by rewrite H.
  - destruct (_extract_json text) as [j|] eqn:Hj; [|done].
    destruct (first_object_parts _ _ Hj)
      as (pre & p & post & -> & _ & _ & Hbal & Hmin).
    pose proof (closing_prefix_last p 0 Hbal Hmin) as Hlast.
    destruct H. apply elem_of_app. right. right. apply elem_of_app. left.
    destruct p as [|c q _] using rev_ind; [done|].
    rewrite last_snoc in Hlast. injection Hlast as ->.
    apply elem_of_app. right. left.
Qed.

(** Braces inside a string of the object count like any other: the object
    is cut at the brace that the string holds. *)
Example extract_json_brace_in_string :
  _extract_json (chars "ok {'code': 'print(1)', 'why': '}'} thanks")
  = Some (chars "{'code': 'print(1)', 'why': '}").
Proof. vm_compute. reflexivity. Qed.

Lemma analyzer_scan_same rest : ∀ stack i,
  AnalyzerLLM.scan stack i rest = scan stack i rest.
Proof.
  induction rest as [|ch rest IH]; intros stack i; [done|].
  cbn [AnalyzerLLM.scan scan]. repeat case_match; auto.
Qed.

(** X5: the analyzer's copy of the function returns what the agent's
    returns, on every text. *)
Theorem extract_json_from_text_same text :
  AnalyzerLLM._extract_json_from_text text = _extract_json text.
Proof.
  unfold AnalyzerLLM._extract_json_from_text, _extract_json.
  destruct (find lbrace text) as [start|]; [|done].
  by rewrite analyzer_scan_same.
Qed.
End JsonTextFacts.

(** ** More on the execution sandbox *)

Section SandboxFacts.
Import Py Executor Scenario Sandbox.


(** A binding the fallback passes over. *)
Local Abbreviation skipped kv :=
  (callable kv.2 = true ∨ startswith_underscore kv.1 = true).

Lemma last_plain_rev local_vars :
  (last_plain (rev local_vars) = PyNone ∧ ∀ kv, kv ∈ local_vars -> skipped kv)
  ∨ ∃ before k v after,
      local_vars = before ++ (k, v) :: after ∧
      callable v = false ∧ startswith_underscore k = false ∧
      (∀ kv, kv ∈ after -> skipped kv) ∧
      last_plain (rev local_vars) = v.
Proof.
  induction local_vars as [|[k v] l IH] using rev_ind.
  { left. split; [done|]. intros kv H. by apply elem_of_nil in H. }
  rewrite rev_unit. cbn [last_plain].
  destruct (negb (callable v) && negb (startswith_underscore k)) eqn:Hplain.
  { apply andb_prop in Hplain as [Hc%negb_true_iff Hu%negb_true_iff].
    right. exists l, k, v, []. repeat split; try done.
    intros kv H. by apply elem_of_nil in H. }
  assert (skipped (k, v)) as Hskip.
  { simpl. destruct (callable v); [by left|]. destruct (startswith_underscore k); [by right|done]. }
  destruct IH as [[Hnone Hall]|(before & k0 & v0 & after & -> & Hc0 & Hu0 & Hall & Hv)].
  - left. split; [done|].
    intros kv [H|H%list_elem_of_singleton]%elem_of_app; [by apply Hall|by subst].
  - right. exists before, k0, v0, (after ++ [(k, v)]).
    rewrite <- app_assoc. repeat split; try done.
    intros kv [H|H%list_elem_of_singleton]%elem_of_app; [by apply Hall|by subst].
Qed.

(** X7: when none of the four result names is bound, the result is the
    value of the last binding that is neither callable nor named with a
    leading underscore; it is [None] when every binding is one or the
    other. The fallback never returns a callable. *)
Theorem fallback_is_last_plain_binding local_vars :
  named_exists local_vars = false ->
  (extract_result local_vars = PyNone ∧ ∀ kv, kv ∈ local_vars -> skipped kv)
  ∨ ∃ before k v after,
      local_vars = before ++ (k, v) :: after ∧
      callable v = false ∧ startswith_underscore k = false ∧
      (∀ kv, kv ∈ after -> skipped kv) ∧
      extract_result local_vars = v.
Proof.
  intros H. rewrite (extract_result_unnamed _ H). apply last_plain_rev.
Qed.

Lemma dict_in_elem {V} k (d : pydict V) : dict_in k d = true <-> k ∈ d.*1.
Proof.
  induction d as [|[k' v] d IH]; simpl.
  - split; [done|]. intros H. by apply elem_of_nil in H.
  - case_decide; subst.
    + split; [intros _; left|done].
    + rewrite IH, elem_of_cons. split; [auto|]. by intros [?|?].
Qed.

Lemma dict_get_elem {V} k v (d : pydict V) :
  wf_dict d -> dict_get k d = Some v <-> (k, v) ∈ d.
Proof.
  unfold wf_dict. induction d as [|[k' v'] d IH]; simpl; intros Hnd.
  - split; [done|]. intros H. by apply elem_of_nil in H.
  - apply NoDup_cons in Hnd as [Hk' Hnd]. case_decide; subst.
    + split; [intros [= ->]; left|].
      intros [[= ->]|H]%elem_of_cons; [done|].
      destruct Hk'. apply list_elem_of_fmap. by exists (k', v).
    + rewrite (IH Hnd), elem_of_cons. split; [auto|].
      intros [[= -> ->]|?]; done.
Qed.

Lemma dict_in_perm {V} k (d d' : pydict V) :
  d ≡ₚ d' -> dict_in k d = dict_in k d'.
Proof.
  intros Hp. apply eq_true_iff_eq. rewrite !dict_in_elem. by rewrite Hp.
Qed.

Lemma dict_get_perm {V} k (d d' : pydict V) :
  wf_dict d -> d ≡ₚ d' -> dict_get k d = dict_get k d'.
Proof.
  intros Hwf Hp.
  assert (wf_dict d') as Hwf' by (unfold wf_dict in *; by rewrite <- Hp).
  apply option_eq. intros v. rewrite !dict_get_elem by done. by rewrite Hp.
Qed.

Lemma first_named_perm names (d d' : pydict pyval) :
  wf_dict d -> d ≡ₚ d' -> first_named names d = first_named names d'.
Proof.
  intros Hwf Hp. induction names as [|n names IH]; simpl; [done|].
  by rewrite (dict_in_perm n d d' Hp), (dict_get_perm n d d' Hwf Hp), IH.
Qed.

(** X8: once one of the result names holds a value other than [None], the
    order in which the program bound its variables does not matter: any
    two dictionaries with the same bindings give the same result. *)
Theorem named_result_ignores_order local_vars local_vars' :
  wf_dict local_vars ->
  local_vars ≡ₚ local_vars' ->
  is_none (first_named result_names local_vars) = false ->
  extract_result local_vars' = extract_result local_vars.
Proof.
  intros Hwf Hp Hnamed. unfold extract_result.
  rewrite <- (first_named_perm result_names _ _ Hwf Hp). by rewrite Hnamed.
Qed.

(** The fallback, by contrast, depends on that order. *)
Example fallback_depends_on_order :
  extract_result [("x", PyInt 1); ("y", PyInt 2)] = PyInt 2 ∧
  extract_result [("y", PyInt 2); ("x", PyInt 1)] = PyInt 1.
Proof. split; reflexivity. Qed.
End SandboxFacts.

(** ** The counters and the visited sequence *)

Section AccountingFacts.
Import Py Executor Agent Scenario Report.

Context (env : nat -> pass_env) (deadline : Z) (max_iterations : nat).
Context (email secret : string).

Local Abbreviation body := (loop_body env deadline max_iterations email secret).
Local Abbreviation loop := (while_loop env deadline max_iterations email secret).

Lemma in_step_settled s : in_step s -> settled s.
Proof.
  intros [Htot Hloc]. split; [lia|]. intros u. rewrite Hloc. lia.
Qed.

Lemma in_step_initial quiz_url : in_step (initial quiz_url).
Proof.
  split; [done|]. intros u. unfold attempts_of, processed_at. simpl.
  by rewrite lookup_empty.
Qed.

(** A pass that does not end the loop keeps the counters in step with the
    visited sequence; the pass that ends it leaves them at most one
    ahead. *)
Lemma loop_body_in_step s :
  in_step s -> ((body s).1 ≠ Break -> in_step (body s).2) ∧ settled (body s).2.
Proof.
  intros [Htot Hloc].
  assert (∀ u, processed_at u (visited_urls s ++ [current_url s]) =
               attempts_of (counted s) u) as Hnext.
  { intros u. unfold counted. rewrite processed_at_snoc, attempts_of_insert, !Hloc.
    case_decide; subst; lia. }
  assert (∀ u, processed_at u (visited_urls s) ≤ attempts_of (counted s) u
               ≤ S (processed_at u (visited_urls s))) as Hcut.
  { intros u. unfold counted. rewrite attempts_of_insert, !Hloc.
    case_decide; subst; lia. }
  pass_cases; fold (counted s) in *.
  all: try (split; [done|]; split; [simpl; lia|]; intros u; simpl;
            first [rewrite Hloc; lia | apply Hcut]).
  all: split; [intros _|apply in_step_settled];
       (split; [simpl; rewrite length_app; simpl; lia|intros u; simpl; by rewrite Hnext]).
Qed.

Lemma while_loop_settled fuel : ∀ s ending,
  in_step s -> loop fuel s = Some ending -> settled (final_session ending).
Proof.
  induction fuel as [|fuel IH]; intros s ending Hs; simpl; [done|].
  destruct (str_truthy _ && _); [|intros [= <-]; by apply in_step_settled].
  destruct (loop_body_in_step s Hs) as [Hstep Hexit].
  destruct (body s) as [[| |next_url|err] s']; simpl in *.
  - by intros [= <-].
  - apply IH. by apply Hstep.
  - apply IH. by apply Hstep.
  - by intros [= <-].
Qed.

Lemma while_loop_inv fuel : ∀ s ending,
  session_inv s -> loop fuel s = Some ending ->
  session_inv (final_session ending).
Proof.
  induction fuel as [|fuel IH]; intros s ending Hs; simpl; [done|].
  destruct (str_truthy _ && _); [|by intros [= <-]].
  pose proof (loop_body_inv env deadline max_iterations email secret s Hs) as Hinv.
  destruct (body s) as [[| |next_url|err] s']; simpl in *.
  - by intros [= <-].
  - by apply IH.
  - by apply IH.
  - by intros [= <-].
Qed.

(** X9: when the loop is left, by its condition, by a [break] or by an
    exception, the reported total is the number of processed attempts or
    one more, and the counter of every location is its number of processed
    attempts or one more; no counter exceeds the per-location ceiling by
    more than one. *)
Theorem counters_track_visits fuel quiz_url ending :
  run_quiz_agent env deadline max_iterations email secret fuel quiz_url
    = Some ending ->
  let final := final_session ending in
  length (visited_urls final) ≤ total_attempts final
    ≤ S (length (visited_urls final)) ∧
  ∀ u, processed_at u (visited_urls final)
       ≤ attempts_of (url_attempt_counts final) u
       ≤ S (processed_at u (visited_urls final)) ∧
       attempts_of (url_attempt_counts final) u ≤ S MAX_ATTEMPTS_PER_URL.
Proof.
  intros Hrun final. unfold run_quiz_agent in Hrun.
  destruct (while_loop_settled _ _ _ (in_step_initial quiz_url) Hrun) as [Htot Hloc].
  destruct (while_loop_inv _ _ _ (session_inv_initial quiz_url) Hrun)
    as (_ & _ & Hmax).
  split; [done|]. intros u. split; [apply Hloc|].
  specialize (Hloc u). specialize (Hmax u). fold final in Hloc, Hmax. lia.
Qed.
End AccountingFacts.

(** ** The final summary *)

Section SummaryFacts.
Import Py Executor Agent Scenario Report.

Lemma filter_split_length (x : string) (l : list string) :
  length (filter (fun v => v = x) l) + length (filter (fun v => v ≠ x) l)
  = length l.
Proof.
  induction l as [|y l IH]; [done|].
  rewrite !filter_cons. repeat case_decide; simpl; try lia; done.
Qed.

Lemma processed_at_filter u x (l : list string) :
  processed_at u (filter (fun v => v ≠ x) l) ≤ processed_at u l.
Proof.
  unfold processed_at. induction l as [|y l IH]; [done|].
  rewrite !filter_cons. repeat case_decide; rewrite ?filter_cons;
    repeat case_decide; simpl; try lia; done.
Qed.

Lemma list_to_set_without x (l : list string) :
  list_to_set (filter (fun v => v ≠ x) l) =@{gset string} list_to_set l ∖ {[x]}.
Proof.
  apply set_eq. intros y.
  rewrite elem_of_difference, !elem_of_list_to_set, list_elem_of_filter,
    elem_of_singleton. tauto.
Qed.

(** A sequence in which no location occurs more than [n] times has at
    least a [n]-th of its length in distinct locations. *)
Lemma length_le_distinct n (l : list string) :
  (∀ u, processed_at u l ≤ n) ->
  length l ≤ n * size (list_to_set l : gset string).
Proof.
  remember (length l) as m eqn:Hm. revert l Hm.
  induction m as [m IH] using lt_wf_ind. intros l Hm Hcount.
  destruct l as [|x l0]; [simpl in Hm; lia|].
  set (l := x :: l0) in *.
  assert (x ∈ l) as Hx by left.
  pose proof (filter_split_length x l) as Hsplit.
  pose proof (length_filter_lt (fun v => v ≠ x) l x Hx) as Hlt.
  assert (0 < size (list_to_set l : gset string)) as Hpos.
  { apply Nat.neq_0_lt_0, size_non_empty_iff. intros Hempty.
    assert (x ∈ (list_to_set l : gset string)) as Hin by by apply elem_of_list_to_set.
    rewrite Hempty in Hin. by apply not_elem_of_empty in Hin. }
  specialize (Hcount x) as Hcx. unfold processed_at in Hcx.
  assert (length (filter (fun v => v ≠ x) l)
          ≤ n * size (list_to_set (filter (fun v => v ≠ x) l) : gset string))
    as Hrest.
  { apply (IH (length (filter (fun v => v ≠ x) l))); [|done|].
    - subst m. apply Hlt. by intros H.
    - intros u. etrans; [apply processed_at_filter|apply Hcount]. }
  rewrite list_to_set_without in Hrest.
  rewrite size_difference in Hrest
    by (apply singleton_subseteq_l, elem_of_list_to_set, Hx).
  rewrite size_singleton in Hrest.
  nia.
Qed.

Lemma size_list_to_set_le (l : list string) :
  size (list_to_set l : gset string) ≤ length l.
Proof.
  induction l as [|x l IH].
  - rewrite list_to_set_nil, size_empty. done.
  - rewrite list_to_set_cons, size_union_alt, size_singleton. cbn [length].
    pose proof (subseteq_size (list_to_set l ∖ {[x]}) (list_to_set l : gset string)
                  (subseteq_difference_l _ _ _ (reflexivity _))).
    lia.
Qed.

Context (env : nat -> pass_env) (deadline : Z) (max_iterations : nat).
Context (email secret : string).

(** X10: in the summary a session logs when its loop has been left without
    an exception, the number of unique locations is at most the number of
    processed attempts, which is at most twice that number; so the total
    reported is between the number of unique locations and twice that
    number plus one. *)
Theorem summary_figures fuel quiz_url final :
  run_quiz_agent env deadline max_iterations email secret fuel quiz_url
    = Some (Returned final) ->
  let report := final_summary final in
  unique_urls report ≤ length (visited_urls final)
    ≤ MAX_ATTEMPTS_PER_URL * unique_urls report ∧
  unique_urls report ≤ reported_total report
    ≤ MAX_ATTEMPTS_PER_URL * unique_urls report + 1.
Proof.
  intros Hrun report. unfold run_quiz_agent in Hrun.
  destruct (while_loop_settled _ _ _ _ _ _ _ _ (in_step_initial quiz_url) Hrun)
    as [Htot _].
  destruct (while_loop_inv _ _ _ _ _ _ _ _ (session_inv_initial quiz_url) Hrun)
    as (_ & _ & Hmax).
  cbn [final_session] in *.
  subst report. unfold final_summary.
  cbn [reported_total unique_urls].
  assert (length (visited_urls final)
          ≤ MAX_ATTEMPTS_PER_URL
            * size (list_to_set (visited_urls final) : gset string)) as Hlen.
  { apply length_le_distinct. intros u. apply Hmax. }
  pose proof (size_list_to_set_le (visited_urls final)) as Hle.
  split; [done|]. lia.
Qed.
End SummaryFacts.

(** ** Sessions that stay on one location *)

Section OneLocationFacts.
Import Py Executor Agent Scenario.

Context (env : nat -> pass_env) (deadline : Z) (max_iterations : nat).
Context (email secret : string).

Local Abbreviation body := (loop_body env deadline max_iterations email secret).
Local Abbreviation loop := (while_loop env deadline max_iterations email secret).
Local Abbreviation try_at n u counts :=
  (attempt_body (attempt (env n)) deadline max_iterations email secret u counts).

(** One turn of the [while]. *)
Lemma while_loop_step fuel s :
  str_truthy (current_url s) = true ->
  (now_top (env (S (total_attempts s))) < deadline)%Z ->
  loop (S fuel) s =
    match body s with
    | (Break, s') => Some (Returned s')
    | (Propagate err, s') => Some (Escaped s' err)
    | (_, s') => loop fuel s'
    end.
Proof. intros Hu Hnow%Z.ltb_lt. simpl. by rewrite Hu, Hnow. Qed.

Lemma entered_initial u : entered (initial u) = Session u 1 {[ u := 1 ]} [u].
Proof.
  unfold entered, counted, initial, attempts_of. simpl.
  by rewrite lookup_empty, insert_empty.
Qed.

Lemma entered_single u t n v :
  entered (Session u t {[ u := n ]} v) = Session u (S t) {[ u := n + 1 ]} (v ++ [u]).
Proof.
  unfold entered, counted, attempts_of. simpl.
  by rewrite lookup_singleton_eq, insert_singleton_eq.
Qed.

Lemma pass_ready_initial u :
  (seconds 10 ≤ deadline - now_guard (env 1))%Z ->
  reaches_processing env deadline (initial u).
Proof.
  intros Ht. unfold reaches_processing, attempts_of, MAX_TOTAL_ATTEMPTS,
    MAX_ATTEMPTS_PER_URL. simpl. rewrite lookup_empty. simpl. repeat split; [lia|lia|done].
Qed.

Lemma pass_ready_single u t n v :
  t < MAX_TOTAL_ATTEMPTS -> n < MAX_ATTEMPTS_PER_URL ->
  (seconds 10 ≤ deadline - now_guard (env (S t)))%Z ->
  reaches_processing env deadline (Session u t {[ u := n ]} v).
Proof.
  intros Ht Hn Htime. unfold reaches_processing, attempts_of. simpl.
  rewrite lookup_singleton_eq. simpl. done.
Qed.

(** A pass on a location that has used up its attempts is cut off. *)
Lemma loop_body_exhausted u t n v :
  t < MAX_TOTAL_ATTEMPTS -> MAX_ATTEMPTS_PER_URL ≤ n ->
  body (Session u t {[ u := n ]} v) = (Break, Session u (S t) {[ u := n + 1 ]} v).
Proof.
  unfold MAX_TOTAL_ATTEMPTS, MAX_ATTEMPTS_PER_URL. intros Ht Hn.
  unfold loop_body. simpl.
  unfold MAX_TOTAL_ATTEMPTS, MAX_ATTEMPTS_PER_URL.
  destruct (30 <? S t)%nat eqn:E1; comparisons; [lia|].
  unfold attempts_of. rewrite !lookup_singleton_eq. cbn [default from_option id].
  rewrite !insert_singleton_eq, !lookup_singleton_eq. cbn [default from_option id].
  destruct (2 <? n + 1)%nat eqn:E2; comparisons; [done|lia].
Qed.

(** X11: when every attempt on the start location raises an exception
    that the [except] clause catches, the session makes exactly two
    attempts there; the third pass is cut off by the per-location ceiling
    and ends the session with a reported total of three. *)
Theorem failing_attempts_end_session u extra :
  str_truthy u = true ->
  (∀ n, 1 ≤ n ≤ 3 -> (now_top (env n) < deadline)%Z) ->
  (∀ n, 1 ≤ n ≤ 2 -> (seconds 10 ≤ deadline - now_guard (env n))%Z) ->
  (∀ n counts, 1 ≤ n ≤ 2 -> ∃ msg, try_at n u counts = Raises msg) ->
  run_quiz_agent env deadline max_iterations email secret (3 + extra) u
    = Some (Returned (Session u 3 {[ u := 3 ]} [u; u])).
Proof.
  intros Hu Hnow Htime Hexn. unfold run_quiz_agent.
  change (3 + extra) with (S (S (S extra))).
  rewrite while_loop_step; [|done|apply Hnow; simpl; lia].
  rewrite (loop_body_processed _ _ _ _ _ _ (pass_ready_initial u (Htime 1 ltac:(lia)))).
  cbn [total_attempts current_url initial].
  destruct (Hexn 1 (counted (initial u)) ltac:(lia)) as [msg1 ->].
  rewrite entered_initial.
  rewrite while_loop_step; [|done|apply Hnow; simpl; lia].
  rewrite (loop_body_processed _ _ _ _ _ _
             (pass_ready_single u 1 1 [u] ltac:(unfold MAX_TOTAL_ATTEMPTS; lia)
                ltac:(unfold MAX_ATTEMPTS_PER_URL; lia) (Htime 2 ltac:(lia)))).
  cbn [total_attempts current_url].
  destruct (Hexn 2 (counted (Session u 1 {[u := 1]} [u])) ltac:(simpl; lia))
    as [msg2 ->].
  rewrite entered_single. cbn [app].
  rewrite while_loop_step; [|done|apply Hnow; simpl; lia].
  rewrite loop_body_exhausted; [done|unfold MAX_TOTAL_ATTEMPTS; lia|done].
Qed.

(** X12: while the deadline is ahead when the [while] condition is tested
    on the first two passes, and at least ten seconds ahead at their
    guards: when both attempts on the start location reach submission and
    the answer to each is "incorrect" with no next location (a transport
    failure is one such answer), the session makes exactly two attempts
    there and stops, with a reported total of two. *)
Theorem rejected_answers_end_session u extra :
  str_truthy u = true ->
  (∀ n, 1 ≤ n ≤ 2 -> (now_top (env n) < deadline)%Z) ->
  (∀ n, 1 ≤ n ≤ 2 -> (seconds 10 ≤ deadline - now_guard (env n))%Z) ->
  (∀ n, 1 ≤ n ≤ 2 ->
     ∃ link answer d,
       reaches_submission (attempt (env n)) deadline max_iterations u link answer ∧
       (submit_answer (post (attempt (env n))) link email secret u answer).2
         = Ok (RespDict d) ∧
       correct d = false ∧ opt_truthy (url d) = false) ->
  run_quiz_agent env deadline max_iterations email secret (2 + extra) u
    = Some (Returned (Session u 2 {[ u := 2 ]} [u; u])).
Proof.
  intros Hu Hnow Htime Hwrong. unfold run_quiz_agent.
  change (2 + extra) with (S (S extra)).
  assert (∀ d, opt_truthy (url d) = false -> ¬ names_new_location d u) as Hno.
  { intros d Hd (n & [Hn1 Hn2] & _). unfold opt_truthy in Hd.
    rewrite Hn1 in Hd. congruence. }
  rewrite while_loop_step; [|done|apply Hnow; simpl; lia].
  destruct (Hwrong 1 ltac:(lia)) as (link1 & a1 & d1 & Hs1 & Hd1 & Hc1 & Hu1).
  rewrite (loop_body_verdict _ _ _ _ _ (initial u) link1 a1 d1
             (pass_ready_initial u (Htime 1 ltac:(lia))) Hs1 Hd1).
  cbn [total_attempts current_url initial].
  rewrite interpret_incorrect_retry; [|done|by apply Hno|].
  2:{ cbn [current_url initial]. pose proof (attempts_of_counted (initial u)) as H.
      cbn [current_url initial] in H. rewrite H. unfold attempts_of. simpl.
      rewrite lookup_empty. unfold MAX_ATTEMPTS_PER_URL. simpl. lia. }
  rewrite entered_initial.
  rewrite while_loop_step; [|done|apply Hnow; simpl; lia].
  destruct (Hwrong 2 ltac:(lia)) as (link2 & a2 & d2 & Hs2 & Hd2 & Hc2 & Hu2).
  rewrite (loop_body_verdict _ _ _ _ _ (Session u 1 {[u := 1]} [u]) link2 a2 d2
             (pass_ready_single u 1 1 [u] ltac:(unfold MAX_TOTAL_ATTEMPTS; lia)
                ltac:(unfold MAX_ATTEMPTS_PER_URL; lia) (Htime 2 ltac:(lia)))
             Hs2 Hd2).
  destruct (interpret_incorrect_exhausted u
              (counted (Session u 1 {[u := 1]} [u])) d2 Hc2 (Hno d2 Hu2)) as [_ Hstop].
  { pose proof (attempts_of_counted (Session u 1 {[u := 1]} [u])) as H.
    cbn [current_url] in H. rewrite H. unfold attempts_of. simpl.
    rewrite lookup_singleton_eq. unfold MAX_ATTEMPTS_PER_URL. simpl. lia. }
  cbn [current_url]. rewrite (Hstop Hu2). by rewrite entered_single.
Qed.
End OneLocationFacts.

(** ** More on one attempt *)

Section AttemptFacts.
Import Py Executor Agent Scenario Downloads.

Context (env : nat -> pass_env) (deadline : Z) (max_iterations : nat).
Context (email secret : string).

Local Abbreviation body := (loop_body env deadline max_iterations email secret).

(** X13: an attempt that ends without an answer, or whose analysis names
    no submission target, stops the session; nothing is submitted, so the
    result is the same whatever the server would have said. *)
Theorem unanswered_attempt_stops s x a answer history :
  reaches_processing env deadline s ->
  let e := attempt (env (S (total_attempts s))) in
  extract_quiz_content e (current_url s) = Some x ->
  call_analyzer_llm e x = Ok a ->
  agent_iterations e deadline max_iterations 1 [] = Returns (answer, history) ->
  is_none answer = true ∨ submission_link a = None ->
  body s = (Break, entered s).
Proof.
  intros Hp e Hx Ha Hit Hnone. rewrite (loop_body_processed _ _ _ _ _ _ Hp).
  fold e. unfold attempt_body. rewrite Hx, Ha. simpl. rewrite Hit. simpl.
  destruct Hnone as [->| ->]; [|done]. by destruct (submission_link a).
Qed.

(** X14: a reply of the server that is JSON but not an object makes the
    attempt fail at the first [.get]: the pass is a retry of the same
    location. *)
Theorem non_object_reply_is_retried s link answer :
  reaches_processing env deadline s ->
  let e := attempt (env (S (total_attempts s))) in
  reaches_submission e deadline max_iterations (current_url s) link answer ->
  post_and_parse (post e) (Request link email secret (current_url s) answer)
    = Ok RespOther ->
  body s = (Continue, entered s).
Proof.
  intros Hp e (x & a & h & Hx & Ha & Hlink & Hit & Hans) Hresp.
  rewrite (loop_body_processed _ _ _ _ _ _ Hp). fold e.
  unfold attempt_body. rewrite Hx, Ha. simpl. rewrite Hit. simpl.
  rewrite Hlink, Hans. unfold submit_answer. simpl. by rewrite Hresp.
Qed.

(** X23: an exception outside the class [Exception] that the first
    execution of generated code lets through is caught nowhere: it leaves
    the iteration engine, which returns neither answer nor history; the
    pass hands it on after the counters were raised and the location
    recorded; and the loop is left with it. *)
Theorem escaping_execution_ends_session s x a r c err fuel :
  reaches_processing env deadline s ->
  str_truthy (current_url s) = true ->
  (now_top (env (S (total_attempts s))) < deadline)%Z ->
  let e := attempt (env (S (total_attempts s))) in
  extract_quiz_content e (current_url s) = Some x ->
  call_analyzer_llm e x = Ok a ->
  0 < max_iterations ->
  (it_now (iter e 1) < deadline)%Z ->
  call_agent_llm (iter e 1) [] = Ok r ->
  is_none (final_answer r) = true ->
  code r = Some c -> str_truthy c = true ->
  execute_code (it_interp (iter e 1)) c 60 = Escapes err ->
  agent_iterations e deadline max_iterations 1 [] = Escapes err ∧
  body s = (Propagate err, entered s) ∧
  while_loop env deadline max_iterations email secret (S fuel) s
    = Some (Escaped (entered s) err).
Proof.
  intros Hp Hu Hnow e Hx Ha Hmax Hit%Z.leb_gt Hr Hfin Hc Ht Hexec.
  assert (agent_iterations e deadline max_iterations 1 [] = Escapes err) as Hrun.
  { destruct max_iterations as [|k]; [lia|]. cbn [agent_iterations].
    rewrite Hit, Hr. cbn [lift mbind outcome_bind].
    rewrite Hfin, Hc, Ht. cbn [negb]. by rewrite Hexec. }
  assert (body s = (Propagate err, entered s)) as Hbody.
  { rewrite (loop_body_processed _ _ _ _ _ _ Hp). fold e.
    unfold attempt_body. rewrite Hx, Ha. cbn [lift mbind outcome_bind].
    by rewrite Hrun. }
  split; [done|]. split; [done|].
  apply Z.ltb_lt in Hnow. cbn [while_loop]. by rewrite Hu, Hnow, Hbody.
Qed.
End AttemptFacts.

Section DownloadFacts.
Import Py Executor Agent Scenario Downloads.

Context (e : attempt_env).

Lemma download_all_lookup u rs : ∀ acc,
  download_all e rs acc !! u =
    match (if existsb (fun r => asks r u) rs then fetch e u else None) with
    | Some file_path => Some file_path
    | None => acc !! u
    end.
Proof.
  induction rs as [|r rs IH]; intros acc; [done|].
  cbn [download_all existsb].
  set (rest := existsb (fun r => asks r u) rs) in *.
  unfold asks at 1.
  destruct (download r) eqn:Hd; cbn [andb orb]; [|apply IH].
  destruct (source_url r) as [u0|] eqn:Hs; cbn [opt_truthy].
  2:{ rewrite bool_decide_false by done. cbn [andb orb]. apply IH. }
  destruct (decide (u0 = u)) as [->|Hne].
  - rewrite bool_decide_true by done. cbn [andb].
    destruct (str_truthy u) eqn:Htu; cbn [orb]; [|apply IH].
    unfold fetch. destruct (download_resource e u) as [p0|] eqn:Hdl.
    + destruct (str_truthy p0) eqn:Htp; rewrite IH; unfold fetch;
        rewrite Hdl, Htp, ?lookup_insert_eq; by destruct rest.
    + rewrite IH. unfold fetch. rewrite Hdl. by destruct rest.
  - rewrite bool_decide_false by congruence. cbn [andb orb].
    destruct (str_truthy u0); [|apply IH].
    destruct (download_resource e u0) as [p0|]; [|apply IH].
    destruct (str_truthy p0); [|apply IH].
    by rewrite IH, lookup_insert_ne.
Qed.

Lemma asks_requested rs u :
  existsb (fun r => asks r u) rs = true <-> requested rs u.
Proof.
  unfold requested, asks. rewrite existsb_exists. split.
  - intros (r & Hr%list_elem_of_In & [[Hd Hs%bool_decide_eq_true]%andb_prop Hu]%andb_prop).
    by exists r.
  - intros (r & Hr%list_elem_of_In & Hd & Hs & Hu). exists r. split; [done|].
    by rewrite Hd, Hu, bool_decide_true.
Qed.

Lemma fetch_delivered u file_path :
  fetch e u = Some file_path <-> delivered e u file_path.
Proof.
  unfold fetch, delivered. destruct (download_resource e u) as [p|].
  - destruct (str_truthy p) eqn:Hp; split.
    + by intros [= ->].
    + by intros [[= ->] _].
    + done.
    + intros [[= ->] H]. congruence.
  - split; [done|]. by intros [? _].
Qed.

(** X15: after step 3, [downloaded_files] maps a locator to a file exactly
    when a resource of the analysis asks for its download under that
    non-empty locator and the downloader delivers a file for it; a resource
    that is not marked for download, or has no locator, adds nothing, and
    a failed download is left out. *)
Theorem downloaded_files_exact rs u file_path :
  download_all e rs ∅ !! u = Some file_path <->
  requested rs u ∧ delivered e u file_path.
Proof.
  rewrite download_all_lookup, lookup_empty, <- asks_requested, <- fetch_delivered.
  destruct (existsb _ rs); [|by split; [|intros [? _]]].
  destruct (fetch e u); by split; [|intros [_ ?]].
Qed.
End DownloadFacts.

(** ** More on the iteration engine *)

Section HistoryFacts.
Import Py Executor Agent Scenario.

Context (e : attempt_env) (deadline : Z).

Local Abbreviation iterate := (agent_iterations e deadline).

(** An execution whose result the engine takes for the answer. *)
Local Abbreviation yields_answer rec :=
  (success (rec_result rec) && negb (is_none (result (rec_result rec)))).

(** The record holds what executing its code returned. *)
Local Abbreviation faithful rec :=
  (execute_code (it_interp (iter e (rec_iteration rec))) (rec_code rec) 60
   = Returns (rec_result rec)).

Lemma agent_iterations_history k : ∀ i history answer history',
  iterate k i history = Returns (answer, history') ->
  ∃ new,
    history' = history ++ new ∧
    length new ≤ k ∧
    rec_iteration <$> new = seq i (length new) ∧
    (∀ rec, rec ∈ new -> faithful rec) ∧
    (∀ rec, rec ∈ new -> yields_answer rec = true ->
       last new = Some rec ∧ answer = result (rec_result rec)).
Proof.
  induction k as [|k IH]; intros i history answer history'.
  { intros [= <- <-]. exists []. rewrite app_nil_r.
    split; [done|]. split; [done|]. split; [done|].
    split; intros rec H; by apply elem_of_nil in H. }
  assert (∀ a, @Returns (pyval * list iteration_record) (a, history)
               = Returns (answer, history') ->
    ∃ new, history' = history ++ new ∧ length new ≤ S k ∧
      rec_iteration <$> new = seq i (length new) ∧
      (∀ rec, rec ∈ new -> faithful rec) ∧
      (∀ rec, rec ∈ new -> yields_answer rec = true ->
         last new = Some rec ∧ answer = result (rec_result rec))) as Hstop.
  { intros a [= <- <-]. exists []. rewrite app_nil_r.
    split; [done|]. split; [simpl; lia|]. split; [done|].
    split; intros rec H; by apply elem_of_nil in H. }
  cbn [agent_iterations].
  destruct (deadline <=? it_now (iter e i))%Z; [apply Hstop|].
  destruct (call_agent_llm (iter e i) history) as [r|msg]; [|done].
  cbn [lift mbind outcome_bind].
  destruct (negb (is_none (final_answer r))); [apply Hstop|].
  destruct (code r) as [c|]; [|apply Hstop].
  destruct (str_truthy c); [|apply Hstop].
  destruct (execute_code (it_interp (iter e i)) c 60) as [x|msg|err] eqn:Hx;
    [|done..].
  cbn [mbind outcome_bind]. cbv zeta.
  set (rec0 := IterationRecord i c x).
  destruct (success x && negb (is_none (result x))) eqn:Hy.
  { intros [= <- <-]. exists [rec0]. split; [done|]. split; [simpl; lia|].
    split; [done|]. split.
    - by intros rec ->%list_elem_of_singleton.
    - by intros rec ->%list_elem_of_singleton _. }
  intros (new & -> & Hlen & Hseq & Hres & Hlast)%IH.
  exists (rec0 :: new). rewrite <- app_assoc. split; [done|].
  split; [simpl; lia|]. split; [by rewrite fmap_cons, Hseq|]. split.
  - intros rec [->|H]%elem_of_cons; [done|by apply Hres].
  - intros rec [->|H]%elem_of_cons Hrec.
    + cbn [rec_result rec0] in Hrec. congruence.
    + destruct (Hlast rec H Hrec) as [Hl ->]. split; [|done].
      destruct new; [by apply elem_of_nil in H|done].
Qed.

(** X16: whatever the collaborator and the executions do, an engine that
    returns has added at most [max_iterations] records to the history it
    was given, in the order of their iteration numbers, which count up by
    one from the first; each record holds the result that executing its
    code returned. *)
Theorem history_is_bounded_and_ordered max_iterations answer history' :
  iterate max_iterations 1 [] = Returns (answer, history') ->
  length history' ≤ max_iterations ∧
  rec_iteration <$> history' = seq 1 (length history') ∧
  ∀ rec, rec ∈ history' ->
    execute_code (it_interp (iter e (rec_iteration rec))) (rec_code rec) 60
    = Returns (rec_result rec).
Proof.
  intros (new & -> & Hlen & Hseq & Hres & _)%agent_iterations_history.
  by rewrite app_nil_l.
Qed.

(** X17: the engine stops at the first execution that succeeds with a
    value: such a record is always the last of the history, and its value
    is the answer the engine returns. *)
Theorem first_answer_ends_iterations max_iterations answer history' rec :
  iterate max_iterations 1 [] = Returns (answer, history') ->
  rec ∈ history' ->
  success (rec_result rec) = true ->
  is_none (result (rec_result rec)) = false ->
  last history' = Some rec ∧ answer = result (rec_result rec).
Proof.
  intros (new & -> & _ & _ & _ & Hlast)%agent_iterations_history Hin Hs Hn.
  rewrite app_nil_l in *. apply Hlast; [done|]. by rewrite Hs, Hn.
Qed.
End HistoryFacts.

(** ** More on the service boundary *)

Section AccessFacts.
Import Py Agent.

(** X18: a request whose secret or whose email is not the expected one is
    answered with 403 and nothing else happens: the orchestrator is not
    called. The secret is checked first. When either expected value is not
    set, every request is turned away. *)
Theorem unauthenticated_request_rejected
    expected_secret expected_email env start fuel request :
  Some (Main.secret request) ≠ expected_secret ∨
  Some (Main.email request) ≠ expected_email ->
  Main.handle_quiz expected_secret expected_email env start fuel request =
    Some [Main.Replied
            (Main.HTTPException 403
               (if decide (Some (Main.secret request) = expected_secret)
                then "Email mismatch" else "Invalid secret"))].
Proof.
  intros H. unfold Main.handle_quiz.
  destruct (decide (Some (Main.secret request) = expected_secret)); [|done].
  destruct (decide (Some (Main.email request) = expected_email)); [|done].
  by destruct H.
Qed.
End AccessFacts.

(** ** The tables of a page *)

Section TableFacts.
Import Extractor.

Lemma tables_loop_spec max_size todo : ∀ tables,
  tables_loop max_size todo tables =
    tables ++ (table_text <$> filter (fun rows => length rows ≤ max_size) todo).
Proof.
  induction todo as [|rows todo IH]; intros tables; simpl.
  - by rewrite app_nil_r.
  - rewrite filter_cons. destruct (length rows <=? max_size)%nat eqn:E.
    + apply Nat.leb_le in E. rewrite decide_True by done.
      by rewrite IH, <- app_assoc.
    + apply Nat.leb_gt in E. rewrite decide_False by lia. apply IH.
Qed.

(** X19: the function returns one text for each of the first five tables
    of the page that has at most [max_size] rows, in their order: never
    more than five texts, and a table after the fifth is never looked at,
    also when some of the first five were too large. *)
Theorem extract_tables_first_five soup_tables max_size :
  extract_tables soup_tables max_size =
    table_text <$> filter (fun rows => length rows ≤ max_size) (take 5 soup_tables) ∧
  length (extract_tables soup_tables max_size) ≤ 5 ∧
  ∀ more, 5 ≤ length soup_tables ->
    extract_tables (soup_tables ++ more) max_size =
    extract_tables soup_tables max_size.
Proof.
  unfold extract_tables. rewrite tables_loop_spec, app_nil_l.
  split; [done|]. split.
  - rewrite length_fmap. etrans; [apply length_filter|].
    rewrite length_take. lia.
  - intros more Hlen. by rewrite tables_loop_spec, take_app_le.
Qed.
End TableFacts.

(** ** The preview of a text file *)

Section PreviewFacts.
Import Preprocessor.

Lemma split_lines_cons content :
  ∃ line lines, split_lines content = line :: lines.
Proof.
  destruct content as [|c rest]; simpl; [by eexists _, _|].
  case_decide; [by eexists _, _|].
  destruct (split_lines rest); by eexists _, _.
Qed.

(** Joining the lines of a text gives the text back. *)
Lemma join_split content : join_lines (split_lines content) = content.
Proof.
  induction content as [|c rest IH]; [done|]. cbn [split_lines].
  destruct (split_lines_cons rest) as (line & lines & Hs). rewrite Hs in IH |- *.
  destruct (decide (c = newline)) as [->|Hc].
  - change (join_lines ([] :: line :: lines))
      with ([] ++ newline :: join_lines (line :: lines)).
    by rewrite IH.
  - destruct lines as [|line' lines].
    + simpl in *. by rewrite IH.
    + change (join_lines ((c :: line) :: line' :: lines))
        with (c :: (line ++ newline :: join_lines (line' :: lines))).
      change (join_lines (line :: line' :: lines))
        with (line ++ newline :: join_lines (line' :: lines)) in IH.
      by rewrite IH.
Qed.

(** A text has one line more than it has line breaks. *)
Lemma split_lines_length content :
  length (split_lines content) = S (breaks content).
Proof.
  unfold breaks. induction content as [|c rest IH]; [done|]. cbn [split_lines].
  rewrite filter_cons. destruct (split_lines_cons rest) as (line & lines & Hs).
  rewrite Hs in IH |- *. case_decide; cbn [length] in *; lia.
Qed.

Lemma join_take_prefix n : ∀ lines,
  join_lines (take n lines) `prefix_of` join_lines lines.
Proof.
  induction n as [|n IH]; intros lines; [apply prefix_nil|].
  destruct lines as [|line rest]; [done|]. cbn [take firstn].
  destruct rest as [|line' rest]; [by rewrite take_nil|].
  specialize (IH (line' :: rest)).
  destruct (take n (line' :: rest)) as [|t ts] eqn:Ht.
  - simpl. by apply prefix_app_r.
  - change (join_lines (line :: t :: ts)) with (line ++ newline :: join_lines (t :: ts)).
    change (join_lines (line :: line' :: rest))
      with (line ++ newline :: join_lines (line' :: rest)).
    by apply prefix_app, prefix_cons.
Qed.

(** X20: the preview of a text file that can be read is a beginning of its
    content, and it is the whole content when the file has at most 20
    lines; the line count is one more than the number of line breaks, so
    an empty file counts one line. *)
Theorem text_preview_is_prefix content :
  ∃ m,
    _extract_text_metadata (Agent.Ok content) = inl m ∧
    preview m `prefix_of` content ∧
    line_count m = S (breaks content) ∧
    (line_count m ≤ 20 -> preview m = content) ∧
    (full_content m = Some content <-> length content < 5000).
Proof.
  eexists. split; [reflexivity|]. cbn [preview line_count full_content].
  split; [|split; [|split]].
  - rewrite <- (join_split content) at 2. apply join_take_prefix.
  - apply split_lines_length.
  - intros H. rewrite take_ge by done. apply join_split.
  - destruct (length content <? 5000)%nat eqn:E; comparisons; split; try done; lia.
Qed.
End PreviewFacts.

(** ** What the loop never undoes *)

Section GrowthFacts.
Import Py Executor Agent Scenario.

Context (env : nat -> pass_env) (deadline : Z) (max_iterations : nat).
Context (email secret : string).

Local Abbreviation body := (loop_body env deadline max_iterations email secret).
Local Abbreviation loop := (while_loop env deadline max_iterations email secret).

Lemma loop_body_visited s :
  visited_urls (body s).2 = visited_urls s ∨
  visited_urls (body s).2 = visited_urls s ++ [current_url s].
Proof. pass_cases; auto. Qed.

Lemma loop_body_counts_grow s u :
  attempts_of (url_attempt_counts s) u
  ≤ attempts_of (url_attempt_counts (body s).2) u.
Proof.
  pass_cases; try done; rewrite attempts_of_insert; case_decide; subst; lia.
Qed.

Lemma while_loop_grows fuel : ∀ s ending,
  loop fuel s = Some ending ->
  let final := final_session ending in
  visited_urls s `prefix_of` visited_urls final ∧
  (∀ u, attempts_of (url_attempt_counts s) u
        ≤ attempts_of (url_attempt_counts final) u) ∧
  (∀ u, u ∈ visited_urls final -> u ∈ visited_urls s ∨ str_truthy u = true).
Proof.
  induction fuel as [|fuel IH]; intros s ending; simpl; [done|].
  destruct (str_truthy (current_url s)) eqn:Hu; cbn [andb].
  2:{ intros [= <-]. split; [done|]. split; [done|]. by left. }
  destruct (_ <? _)%Z.
  2:{ intros [= <-]. split; [done|]. split; [done|]. by left. }
  pose proof (loop_body_visited s) as Hv.
  pose proof (loop_body_counts_grow s) as Hc.
  assert (∀ u, u ∈ visited_urls (body s).2 ->
               u ∈ visited_urls s ∨ str_truthy u = true) as Ht.
  { intros u Hin. destruct Hv as [Hv|Hv]; rewrite Hv in Hin; [by left|].
    apply elem_of_app in Hin as [? | ->%list_elem_of_singleton]; [by left|by right]. }
  assert (visited_urls s `prefix_of` visited_urls (body s).2) as Hp.
  { destruct Hv as [->| ->]; [done|by apply prefix_app_r]. }
  assert (∀ x, loop fuel (body s).2 = Some x ->
            visited_urls s `prefix_of` visited_urls (final_session x) ∧
            (∀ u, attempts_of (url_attempt_counts s) u
                  ≤ attempts_of (url_attempt_counts (final_session x)) u) ∧
            (∀ u, u ∈ visited_urls (final_session x) ->
                  u ∈ visited_urls s ∨ str_truthy u = true))
    as Hrest.
  { intros x (Hp2 & Hc2 & Ht2)%IH. split; [by etrans|]. split.
    - intros u. etrans; [apply Hc|apply Hc2].
    - intros u Hin. destruct (Ht2 u Hin) as [Hin2|?]; [by apply Ht|by right]. }
  destruct (body s) as [[| |next_url|err] s']; simpl in *.
  - intros [= <-]. done.
  - apply Hrest.
  - apply Hrest.
  - intros [= <-]. done.
Qed.

(** X21: a session never processes a location that is not truthy: the
    [while] condition has found every entry of the visited sequence truthy
    before the pass that appended it (for a string: not empty). *)
Theorem visited_locations_nonempty fuel quiz_url ending :
  run_quiz_agent env deadline max_iterations email secret fuel quiz_url
    = Some ending ->
  ∀ u, u ∈ visited_urls (final_session ending) -> str_truthy u = true.
Proof.
  intros (_ & _ & Ht)%while_loop_grows u Hu.
  destruct (Ht u Hu) as [Hin|?]; [|done]. by apply elem_of_nil in Hin.
Qed.

(** X22: from any session on, the loop only appends to the visited
    sequence and only raises the per-location counters. *)
Theorem loop_only_adds fuel s ending :
  loop fuel s = Some ending ->
  visited_urls s `prefix_of` visited_urls (final_session ending) ∧
  ∀ u, attempts_of (url_attempt_counts s) u
       ≤ attempts_of (url_attempt_counts (final_session ending)) u.
Proof. intros (Hp & Hc & _)%while_loop_grows. done. Qed.
End GrowthFacts.

(** ** The further statements at work on scripted inputs *)

Section ScriptedMore.
Import Py Executor Agent Scenario Report Scripts.

(** The object of the wrapped reply. *)
Lemma extract_json_first_object_witness :
  ∃ pre post,
    wrapped_reply = pre ++ wrapped_object ++ post ∧
    ("{"%char ∉ pre) ∧
    head wrapped_object = Some "{"%char ∧ last wrapped_object = Some "}"%char ∧
    AgentLLM.opens wrapped_object = AgentLLM.closes wrapped_object ∧
    ∀ n, 0 < n < length wrapped_object ->
      AgentLLM.closes (take n wrapped_object) < AgentLLM.opens (take n wrapped_object).
Proof.
  apply (extract_json_first_object wrapped_reply wrapped_object).
  vm_compute. reflexivity.
Defined.

(** An empty object between two words. *)
Lemma extract_json_finds_object_witness :
  AgentLLM._extract_json (AgentLLM.chars "so " ++ AgentLLM.chars "{}" ++ AgentLLM.chars " it is")
  = Some (AgentLLM.chars "{}").
Proof.
  apply extract_json_finds_object.
  - apply (bool_decide_unpack _). vm_compute. exact I.
  - reflexivity.
  - reflexivity.
  - intros n [Hn1 Hn2]. assert (n = 1) as -> by (simpl in Hn2; lia).
    vm_compute. lia.
Defined.

Lemma extract_json_idempotent_witness :
  AgentLLM._extract_json wrapped_object = Some wrapped_object.
Proof.
  apply (extract_json_idempotent wrapped_reply). vm_compute. reflexivity.
Defined.

(** The last plain binding of three. *)
Lemma fallback_is_last_plain_binding_witness :
  (extract_result plain_bindings = PyNone ∧
   ∀ kv, kv ∈ plain_bindings ->
     callable kv.2 = true ∨ startswith_underscore kv.1 = true)
  ∨ ∃ before k v after,
      plain_bindings = before ++ (k, v) :: after ∧
      callable v = false ∧ startswith_underscore k = false ∧
      (∀ kv, kv ∈ after ->
         callable kv.2 = true ∨ startswith_underscore kv.1 = true) ∧
      extract_result plain_bindings = v.
Proof. apply fallback_is_last_plain_binding. reflexivity. Defined.

Lemma named_result_ignores_order_witness :
  extract_result answer_last = extract_result answer_first.
Proof.
  apply named_result_ignores_order.
  - apply (bool_decide_unpack _). vm_compute. exact I.
  - apply perm_swap.
  - reflexivity.
Defined.

(** The first attempt of a session runs code that calls [sys.exit(1)]. *)
Lemma escaping_execution_ends_session_witness :
  agent_iterations attempt_exiting_code three_minutes 2 1 []
    = Escapes "SystemExit: 1" ∧
  loop_body (still attempt_exiting_code) three_minutes 2 me s3cret (initial q1)
    = (Propagate "SystemExit: 1", entered (initial q1)) ∧
  while_loop (still attempt_exiting_code) three_minutes 2 me s3cret 1 (initial q1)
    = Some (Escaped (entered (initial q1)) "SystemExit: 1").
Proof.
  refine (escaping_execution_ends_session (still attempt_exiting_code)
            three_minutes 2 me s3cret (initial q1) some_extraction some_analysis
            (AgentResponse (Some "import sys; sys.exit(1)") PyNone "try this")
            "import sys; sys.exit(1)" "SystemExit: 1" 0
            (first_pass_reaches_processing _ _) _ _ _ _ _ _ _ _ _ _ _);
    try reflexivity.
  vm_compute. lia.
Defined.


Lemma two_attempts_run :
  run_quiz_agent (still (attempt_answering server_wrong)) three_minutes 2
    me s3cret 31 q1 = Some (Returned two_attempts).
Proof. vm_compute. reflexivity. Defined.

Lemma counters_track_visits_witness :
  length (visited_urls two_attempts) ≤ total_attempts two_attempts
    ≤ S (length (visited_urls two_attempts)) ∧
  ∀ u, processed_at u (visited_urls two_attempts)
       ≤ attempts_of (url_attempt_counts two_attempts) u
       ≤ S (processed_at u (visited_urls two_attempts)) ∧
       attempts_of (url_attempt_counts two_attempts) u ≤ S MAX_ATTEMPTS_PER_URL.
Proof.
  exact (counters_track_visits (still (attempt_answering server_wrong))
           three_minutes 2 me s3cret 31 q1 (Returned two_attempts)
           two_attempts_run).
Defined.

Lemma summary_figures_witness :
  let report := final_summary two_attempts in
  unique_urls report ≤ length (visited_urls two_attempts)
    ≤ MAX_ATTEMPTS_PER_URL * unique_urls report ∧
  unique_urls report ≤ reported_total report
    ≤ MAX_ATTEMPTS_PER_URL * unique_urls report + 1.
Proof.
  exact (summary_figures (still (attempt_answering server_wrong))
           three_minutes 2 me s3cret 31 q1 two_attempts two_attempts_run).
Defined.

(** The analysis fails on every attempt. *)
Lemma failing_attempts_end_session_witness :
  run_quiz_agent (still attempt_no_analysis) three_minutes 2 me s3cret 3 q1
    = Some (Returned (Session q1 3 {[ q1 := 3 ]} [q1; q1])).
Proof.
  apply (failing_attempts_end_session (still attempt_no_analysis) three_minutes
           2 me s3cret q1 0).
  - reflexivity.
  - intros n _. reflexivity.
  - intros n _. vm_compute. discriminate.
  - intros n counts _. eexists. reflexivity.
Defined.

(** The server rejects every answer. *)
Lemma rejected_answers_end_session_witness :
  run_quiz_agent (still (attempt_answering server_wrong)) three_minutes 2 me
    s3cret 2 q1 = Some (Returned (Session q1 2 {[ q1 := 2 ]} [q1; q1])).
Proof.
  apply (rejected_answers_end_session (still (attempt_answering server_wrong))
           three_minutes 2 me s3cret q1 0).
  - reflexivity.
  - intros n _. reflexivity.
  - intros n _. vm_compute. discriminate.
  - intros n _. exists submit_url, (PyInt 42), (OutcomeDict false (Some "wrong") None).
    split; [apply answering_reaches_submission|]. by repeat split.
Defined.

(** The collaborator has nothing to offer. *)
Lemma unanswered_attempt_stops_witness :
  loop_body (still attempt_silent) three_minutes 2 me s3cret (initial q1)
    = (Break, entered (initial q1)).
Proof.
  refine (unanswered_attempt_stops (still attempt_silent) three_minutes 2 me
            s3cret (initial q1) some_extraction some_analysis PyNone []
            (first_pass_reaches_processing _ _) _ _ _ _).
  - reflexivity.
  - reflexivity.
  - reflexivity.
  - by left.
Defined.

(** The server answers with an array. *)
Lemma non_object_reply_is_retried_witness :
  loop_body (still (attempt_answering server_odd)) three_minutes 2 me s3cret
    (initial q1) = (Continue, entered (initial q1)).
Proof.
  refine (non_object_reply_is_retried (still (attempt_answering server_odd))
            three_minutes 2 me s3cret (initial q1) submit_url (PyInt 42)
            (first_pass_reaches_processing _ _)
            (answering_reaches_submission _) _).
  reflexivity.
Defined.

Lemma second_try_run :
  agent_iterations attempt_second_try three_minutes 2 1 []
    = Returns (PyInt 42, [first_record; second_record]).
Proof. reflexivity. Defined.

Lemma history_is_bounded_and_ordered_witness :
  length [first_record; second_record] ≤ 2 ∧
  rec_iteration <$> [first_record; second_record] = seq 1 2 ∧
  ∀ rec, rec ∈ [first_record; second_record] ->
    execute_code (it_interp (iter attempt_second_try (rec_iteration rec)))
      (rec_code rec) 60
    = Returns (rec_result rec).
Proof.
  exact (history_is_bounded_and_ordered attempt_second_try three_minutes 2
           (PyInt 42) [first_record; second_record] second_try_run).
Defined.

Lemma first_answer_ends_iterations_witness :
  last [first_record; second_record] = Some second_record ∧
  PyInt 42 = result (rec_result second_record).
Proof.
  refine (first_answer_ends_iterations attempt_second_try three_minutes 2
            (PyInt 42) [first_record; second_record] second_record
            second_try_run _ _ _).
  - right. left.
  - reflexivity.
  - reflexivity.
Defined.

(** A caller who guesses the secret. *)
Lemma unauthenticated_request_rejected_witness :
  Main.handle_quiz (Some s3cret) (Some me)
    (still (attempt_answering server_wrong)) 0 31
    {| Main.email := me; Main.secret := "guess"; Main.url := q1 |}
  = Some [Main.Replied (Main.HTTPException 403 "Invalid secret")].
Proof.
  refine (unauthenticated_request_rejected (Some s3cret) (Some me)
            (still (attempt_answering server_wrong)) 0 31
            {| Main.email := me; Main.secret := "guess"; Main.url := q1 |} _).
  left. vm_compute. discriminate.
Defined.
Lemma visited_locations_nonempty_witness : str_truthy q1 = true.
Proof.
  refine (visited_locations_nonempty (still (attempt_answering server_wrong))
            three_minutes 2 me s3cret 31 q1 (Returned two_attempts)
            two_attempts_run q1 _).
  left.
Defined.

Lemma two_attempts_loop :
  while_loop (still (attempt_answering server_wrong)) three_minutes 2 me s3cret
    31 (initial q1) = Some (Returned two_attempts).
Proof. vm_compute. reflexivity. Defined.

Lemma loop_only_adds_witness :
  visited_urls (initial q1) `prefix_of` visited_urls two_attempts ∧
  ∀ u, attempts_of (url_attempt_counts (initial q1)) u
       ≤ attempts_of (url_attempt_counts two_attempts) u.
Proof.
  exact (loop_only_adds (still (attempt_answering server_wrong)) three_minutes 2
           me s3cret 31 (initial q1) (Returned two_attempts) two_attempts_loop).
Defined.
End ScriptedMore.
